(** * eth-event: decoding of Ethereum event logs

    A shallow embedding of [eth_event/main.py] and the properties of its
    decoding engine: canonical type signatures, topics, the indexed /
    unindexed split of [_decode], the batch decoder and the trace walker.

    Python dictionaries with a fixed set of keys become records whose
    fields are options when the code can meet a missing key; exceptions
    become the [Raise] branch of a result type, and [try/except] blocks
    become handlers on it.  The libraries the module calls ([eth_abi],
    [eth_hash], [eth_utils]) are an interface, [Externals]; [hexbytes] is
    small enough to be written out. *)

From Stdlib Require Import ZArith String Ascii HexString.
From Stdlib Require Import Init.Byte Strings.Byte.
From stdpp Require Import gmap strings list.

Local Open Scope string_scope.
Local Open Scope Z_scope.

(** ** Exceptions and results *)

Inductive exn : Type :=
| ABIError (msg : string)
| EventError (msg : string)
| StructLogError (msg : string)
| UnknownEvent (msg : string)
| KeyError (key : string)
| IndexError
| TypeError
| ValueError
| StopIteration
| OverflowError
| InsufficientDataBytes
| NonEmptyPaddingBytes
| InvalidPointer (msg : string)
| NoEntriesFound
| OtherError (name : string).

Inductive result (A : Type) : Type :=
| Ok (a : A)
| Raise (e : exn).

Arguments Ok {A} a.
Arguments Raise {A} e.

Definition bind {A B} (r : result A) (k : A -> result B) : result B :=
  match r with
  | Ok a => k a
  | Raise e => Raise e
  end.

Declare Scope py_scope.
Delimit Scope py_scope with py.
Notation "'let*' x ':=' e 'in' k" := (bind e (fun x => k))
  (at level 10, x pattern, e at level 100, k at level 200) : py_scope.
Local Open Scope py_scope.

(** [d[key]] on a dictionary whose key may be missing. *)
Definition getitem {A} (key : string) (o : option A) : result A :=
  match o with
  | Some a => Ok a
  | None => Raise (KeyError key)
  end.

(** [try: r except (KeyError, TypeError): raise e]. *)
Definition except_KeyError_TypeError {A} (r : result A) (e : exn) : result A :=
  match r with
  | Raise (KeyError _) => Raise e
  | Raise TypeError => Raise e
  | _ => r
  end.

(** The loop [for x in l: out.append(f(x))], stopping at the first exception. *)
Definition for_each {A B} (f : A -> result B) : list A -> result (list B) :=
  fix go (l : list A) : result (list B) :=
    match l with
    | [] => Ok []
    | x :: r =>
        match f x with
        | Raise e => Raise e
        | Ok y => match go r with
                  | Raise e => Raise e
                  | Ok ys => Ok (y :: ys)
                  end
        end
    end.

(** ** Python values *)

Set Warnings "-register-all".

Inductive pyval : Type :=
| PNone
| PBool (b : bool)
| PInt (n : Z)
| PStr (s : string)
| PBytes (b : list byte)
| PSeq (l : list pyval).

(** ** hexbytes *)

Definition hex_digit (n : N) : ascii :=
  match n with
  | 0 => "0" | 1 => "1" | 2 => "2" | 3 => "3" | 4 => "4" | 5 => "5"
  | 6 => "6" | 7 => "7" | 8 => "8" | 9 => "9" | 10 => "a" | 11 => "b"
  | 12 => "c" | 13 => "d" | 14 => "e" | _ => "f"
  end%N%char.

(** [binascii.hexlify]: two lower-case digits per byte. *)
Fixpoint hexlify (b : list byte) : string :=
  match b with
  | [] => ""
  | x :: r =>
      let n := Byte.to_N x in
      String (hex_digit (n / 16)) (String (hex_digit (n mod 16)) (hexlify r))
  end%N.

(** [binascii.unhexlify]: [None] stands for [binascii.Error]. *)
Fixpoint unhexlify (s : string) : option (list byte) :=
  match s with
  | "" => Some []
  | String _ "" => None
  | String a (String b r) =>
      match ascii_to_digit a, ascii_to_digit b with
      | Some x, Some y =>
          match Byte.of_N (16 * x + y), unhexlify r with
          | Some c, Some cs => Some (c :: cs)
          | _, _ => None
          end
      | _, _ => None
      end
  end%N.

Definition strip_0x (s : string) : string :=
  if String.prefix "0x" s || String.prefix "0X" s
  then String.substring 2 (String.length s - 2) s
  else s.

(** [hexbytes._utils.hexstr_to_bytes]. *)
Definition hexstr_to_bytes (hexstr : string) : result (list byte) :=
  let non_prefixed_hex := strip_0x hexstr in
  let padded_hex :=
    if Nat.odd (String.length hexstr) then String "0" non_prefixed_hex
    else non_prefixed_hex in
  match unhexlify padded_hex with
  | Some b => Ok b
  | None => Raise ValueError
  end.

(** [HexBytes(val)], that is [hexbytes._utils.to_bytes]: bytes pass through,
    a string is read as hexadecimal, and an integer becomes the bytes of
    [hex(val)], its shortest big-endian form. *)
Definition HexBytes (val : pyval) : result (list byte) :=
  match val with
  | PBytes b => Ok b
  | PStr s => hexstr_to_bytes s
  | PBool b => Ok [if b then x01 else x00]%byte
  | PInt n => if n <? 0 then Raise ValueError else hexstr_to_bytes (HexString.of_Z n)
  | PNone | PSeq _ => Raise TypeError
  end.

(** ** The libraries behind the module

    [keccak] is [eth_hash.auto.keccak], [to_checksum_address] is the
    function of [eth_utils], and [eth_abi_decode] is [eth_abi.decode]; the
    last two can raise.  [hex_prefix] is what [HexBytes.hex()] puts before
    the digits: ["0x"] before hexbytes 1.0 and nothing since. *)
Class Externals : Type := {
  keccak : list byte -> list byte;
  to_checksum_address : pyval -> result string;
  eth_abi_decode : list string -> list byte -> result (list pyval);
  hex_prefix : string
}.

(** ** ABI descriptions *)

(** One entry of an [inputs] or [components] list. *)
Inductive param : Type :=
  Param (p_name : option string) (p_type : option string)
        (p_indexed : option bool) (p_components : option (list param)).

Definition p_name (i : param) := let 'Param n _ _ _ := i in n.
Definition p_type (i : param) := let 'Param _ t _ _ := i in t.
Definition p_indexed (i : param) := let 'Param _ _ x _ := i in x.
Definition p_components (i : param) := let 'Param _ _ _ c := i in c.

(** One entry of a contract ABI. *)
Record abi_entry : Type := {
  e_type : option string;
  e_name : option string;
  e_inputs : option (list param);
  e_anonymous : option bool
}.

(** A value of the topic map: [{"name": ..., "inputs": ...}]. *)
Record schema : Type := {
  s_name : string;
  s_inputs : list param
}.

(** ** Type signatures *)

Definition is_digit (c : ascii) : bool :=
  let n := N_of_ascii c in ((48 <=? n) && (n <=? 57))%N.

(** The longest prefix of decimal digits, and what follows it. *)
Fixpoint span_digits (s : string) : string * string :=
  match s with
  | String c r =>
      if is_digit c then let '(d, t) := span_digits r in (String c d, t)
      else ("", s)
  | "" => ("", "")
  end.

(** [pattern.match(ty)] for the pattern of [_params]: the word [tuple], then
    optionally an opening bracket, a run of decimal digits and a closing
    bracket.  [None] when the type does not start with [tuple]; otherwise
    the second group: [Some size] when the bracket group matched, [None]
    when it did not. *)
Definition tuple_match (ty : string) : option (option string) :=
  if String.prefix "tuple" ty then
    match String.substring 5 (String.length ty - 5) ty with
    | String "[" r =>
        match span_digits r with
        | (size, String "]" _) => Some (Some size)
        | _ => Some None
        end
    | _ => Some None
    end
  else None.

Definition tuple_type_tail (group : option string) : string :=
  match group with
  | Some _size => "[" ++ _size ++ "]"
  | None => ""
  end.

(** The body of the loop of [_params]: the type appended for one entry.
    The recursion goes through the entry and its components; the equation
    with [_params] in the place of the inner loop is [param_type_eq]. *)
Fixpoint param_type (i : param) : result string :=
  match i with
  | Param _ ty _ comps =>
      match ty with
      | None => Raise (KeyError "type")
      | Some ty =>
          match tuple_match ty with
          | Some group =>
              match comps with
              | None => Raise (KeyError "components")
              | Some cs =>
                  match for_each param_type cs with
                  | Raise e => Raise e
                  | Ok inner =>
                      Ok ("(" ++ String.concat "," inner ++ ")" ++ tuple_type_tail group)
                  end
              end
          | None => Ok ty
          end
      end
  end.

Definition _params (abi_params : list param) : result (list string) :=
  for_each param_type abi_params.

Section Engine.
Context `{Ext : Externals}.

(** [HexBytes.hex()]. *)
Definition hexbytes_hex (b : list byte) : string := hex_prefix ++ hexlify b.

Definition _0xstring (value : pyval) : result string :=
  let* b := HexBytes value in Ok (hexbytes_hex b).

(** ** Topics *)

Definition truthy (o : option bool) : bool := default false o.

Definition get_log_topic (event_abi : abi_entry) : result string :=
  if truthy (e_anonymous event_abi)
  then Raise (ABIError "Anonymous events do not have a topic")
  else
    let* inputs := getitem "inputs" (e_inputs event_abi) in
    let* types := _params inputs in
    let* name := getitem "name" (e_name event_abi) in
    let key := list_byte_of_string (name ++ "(" ++ String.concat "," types ++ ")") in
    _0xstring (PBytes (keccak key)).

(** The list comprehension of [get_topic_map]. *)
Fixpoint select_events (abi : list abi_entry) : result (list abi_entry) :=
  match abi with
  | [] => Ok []
  | i :: rest =>
      let* ty := getitem "type" (e_type i) in
      let* events := select_events rest in
      Ok (if String.eqb ty "event" && negb (truthy (e_anonymous i))
          then i :: events else events)
  end.

(** The dictionary comprehension of [get_topic_map]: later entries win. *)
Fixpoint topic_dict (events : list abi_entry) (acc : gmap string schema)
  : result (gmap string schema) :=
  match events with
  | [] => Ok acc
  | i :: rest =>
      let* topic := get_log_topic i in
      let* name := getitem "name" (e_name i) in
      let* inputs := getitem "inputs" (e_inputs i) in
      topic_dict rest (<[topic := {| s_name := name; s_inputs := inputs |}]> acc)
  end.

Definition get_topic_map (abi : list abi_entry) : result (gmap string schema) :=
  except_KeyError_TypeError
    (let* events := select_events abi in topic_dict events ∅)
    (ABIError "Invalid ABI").

(** ** Logs and events *)

(** A log of a transaction receipt; [l_extra] holds its other keys. *)
Record raw_log : Type := {
  l_address : pyval;
  l_topics : list pyval;
  l_data : pyval;
  l_extra : gmap string pyval
}.

(** An entry of the [data] list of a decoded event. *)
Record field : Type := {
  f_name : string;
  f_type : string;
  f_components : option (list param);
  f_value : pyval;
  f_decoded : bool
}.

Inductive event_data : Type :=
| Fields (l : list field)
| RawData (s : string).

(** A returned event.  [ev_topics] is [None] when the key is absent. *)
Record event_record : Type := {
  ev_name : option string;
  ev_topics : option (list string);
  ev_data : event_data;
  ev_decoded : bool;
  ev_address : option string;
  ev_extra : gmap string pyval
}.

Definition ADD_LOG_ENTRIES : list string :=
  ["logIndex"; "blockNumber"; "transactionIndex"].

Fixpoint append_additional_log_data (log_extra : gmap string pyval) (event : event_record)
    (log_entries : list string) : event_record :=
  match log_entries with
  | [] => event
  | log_entry :: rest =>
      let event :=
        match log_extra !! log_entry with
        | Some v =>
            {| ev_name := ev_name event; ev_topics := ev_topics event;
               ev_data := ev_data event; ev_decoded := ev_decoded event;
               ev_address := ev_address event;
               ev_extra := <[log_entry := v]> (ev_extra event) |}
        | None => event
        end in
      append_additional_log_data log_extra event rest
  end.

(** ** [_decode] *)

Definition too_many_topics_msg : string :=
  "Event log does not contain enough topics for the given ABI - this"
  ++ " is usually because an event argument is not marked as indexed".

Definition too_few_topics_msg : string :=
  "Event log contains more topics than expected for the given ABI - this is"
  ++ " usually because an event argument is incorrectly marked as indexed".

(** [[i for i in inputs if keep(i["indexed"])]]. *)
Fixpoint select_indexed (keep : bool -> bool) (inputs : list param) : result (list param) :=
  match inputs with
  | [] => Ok []
  | i :: rest =>
      let* indexed := getitem "indexed" (p_indexed i) in
      let* sel := select_indexed keep rest in
      Ok (if keep indexed then i :: sel else sel)
  end.

(** [l.pop()]: the last element and the list without it. *)
Definition pop {A} (l : list A) : option (A * list A) :=
  match rev l with
  | [] => None
  | x :: r => Some (x, rev r)
  end.

Definition is_empty_marker (data : pyval) : bool :=
  match data with
  | PStr s => String.eqb s "0x"
  | _ => false
  end.

(** [if isinstance(value, bytes): value = _0xstring(value)]. *)
Definition render (value : pyval) : result pyval :=
  match value with
  | PBytes _ => let* s := _0xstring value in Ok (PStr s)
  | _ => Ok value
  end.

(** The first [try] of [_decode] with its handlers. *)
Definition decode_data (unindexed_types : list string) (data : pyval) : result (list pyval) :=
  let* buf := HexBytes data in
  match eth_abi_decode unindexed_types buf with
  | Raise InsufficientDataBytes => Raise (EventError "Event data has insufficient length")
  | Raise NonEmptyPaddingBytes => Raise (EventError "Malformed data field in event log")
  | Raise (InvalidPointer e) => Raise (EventError e)
  | Raise OverflowError => Raise (EventError "Cannot decode event due to overflow error")
  | r => r
  end.

(** The last loop of [_decode]; [topics] and [decoded] are the reversed
    lists, consumed from their ends. *)
Fixpoint assemble (inputs : list param) (topics decoded : list pyval) : result (list field) :=
  match inputs with
  | [] => Ok []
  | i :: rest =>
      let* name := getitem "name" (p_name i) in
      let* ty := getitem "type" (p_type i) in
      let entry v d :=
        {| f_name := name; f_type := ty; f_components := p_components i;
           f_value := v; f_decoded := d |} in
      let* from_topic :=
        match topics with
        | [] => Ok false
        | _ => getitem "indexed" (p_indexed i)
        end in
      if (from_topic : bool) then
        match pop topics with
        | None => Raise IndexError
        | Some (topic, topics) =>
            let* encoded := HexBytes topic in
            match eth_abi_decode [ty] encoded with
            | Raise InsufficientDataBytes | Raise NoEntriesFound | Raise OverflowError =>
                let* raw := _0xstring (PBytes encoded) in
                let* result := assemble rest topics decoded in
                Ok (entry (PStr raw) false :: result)
            | Raise e => Raise e
            | Ok [] => Raise IndexError
            | Ok (value :: _) =>
                let* value := render value in
                let* result := assemble rest topics decoded in
                Ok (entry value true :: result)
            end
        end
      else
        match pop decoded with
        | None => Raise IndexError
        | Some (value, decoded) =>
            let* value := render value in
            let* result := assemble rest topics decoded in
            Ok (entry value true :: result)
        end
  end.

(** The first block of [_decode]: the count of indexed inputs against the
    topics, and the inputs whose values are read from the data. *)
Definition unindexed_inputs (inputs : list param) (topics : list pyval)
  : result (list param) :=
  let* indexed := select_indexed id inputs in
  let indexed_count := length indexed in
  if negb (indexed_count =? 0)%nat && (length topics =? 0)%nat then Ok inputs
  else if (indexed_count <? length topics)%nat then Raise (EventError too_many_topics_msg)
  else if (length topics <? indexed_count)%nat then Raise (EventError too_few_topics_msg)
  else select_indexed negb inputs.

(** [if unindexed_types and data == "0x": data = _0xstring(length)]. *)
Definition fill_empty_data (unindexed_types : list string) (data : pyval) : result pyval :=
  if negb (length unindexed_types =? 0)%nat && is_empty_marker data then
    let length := Z.of_nat (length unindexed_types) * 32 in
    let* s := _0xstring (PInt length) in Ok (PStr s)
  else Ok data.

Definition _decode (inputs : list param) (topics : list pyval) (data : pyval)
  : result (list field) :=
  let* unindexed_types := unindexed_inputs inputs topics in
  let* unindexed_types :=
    except_KeyError_TypeError (_params unindexed_types) (ABIError "Invalid ABI") in
  let* data := fill_empty_data unindexed_types data in
  let* decoded := decode_data unindexed_types data in
  assemble inputs (rev topics) (rev decoded).

(** ** [decode_log] and [decode_logs] *)

Definition decode_log (log : raw_log) (topic_map : gmap string schema) : result event_record :=
  match l_topics log with
  | [] => Raise (EventError "Cannot decode an anonymous event")
  | topic0 :: topics =>
      let* key := _0xstring topic0 in
      match topic_map !! key with
      | None => Raise (UnknownEvent "Event topic is not present in given ABI")
      | Some abi =>
          except_KeyError_TypeError
            (let* data := _decode (s_inputs abi) topics (l_data log) in
             let* address := to_checksum_address (l_address log) in
             let event :=
               {| ev_name := Some (s_name abi); ev_topics := None;
                  ev_data := Fields data; ev_decoded := true;
                  ev_address := Some address; ev_extra := ∅ |} in
             Ok (append_additional_log_data (l_extra log) event ADD_LOG_ENTRIES))
            (EventError "Invalid event")
      end
  end.

(** [not topics or topics[0] not in topic_map]. *)
Definition undecodable (topics : list string) (topic_map : gmap string schema) : bool :=
  match topics with
  | [] => true
  | topic0 :: _ => bool_decide (topic_map !! topic0 = None)
  end.

(** The body of the loop of [decode_logs]: the event appended for one log. *)
Definition decode_logs_item (item : raw_log) (topic_map : gmap string schema)
    (allow_undecoded : bool) : result event_record :=
  let* topics := for_each _0xstring (l_topics item) in
  if undecodable topics topic_map then
    if negb allow_undecoded
    then Raise (UnknownEvent "Log contains undecodable event")
    else
      let* data := _0xstring (l_data item) in
      let* address := to_checksum_address (l_address item) in
      let event :=
        {| ev_name := None; ev_topics := Some topics;
           ev_data := RawData data; ev_decoded := false;
           ev_address := Some address; ev_extra := ∅ |} in
      Ok (append_additional_log_data (l_extra item) event ADD_LOG_ENTRIES)
  else decode_log item topic_map.

(** The loop of [decode_logs]; [events] is the list built so far. *)
Fixpoint decode_logs_loop (logs : list raw_log) (topic_map : gmap string schema)
    (allow_undecoded : bool) (events : list event_record) : result (list event_record) :=
  match logs with
  | [] => Ok events
  | item :: rest =>
      let* event := decode_logs_item item topic_map allow_undecoded in
      decode_logs_loop rest topic_map allow_undecoded (events ++ [event])
  end.

Definition decode_logs (logs : list raw_log) (topic_map : gmap string schema)
    (allow_undecoded : bool) : result (list event_record) :=
  decode_logs_loop logs topic_map allow_undecoded [].

(** ** The trace walker *)

(** One entry of [structLogs]. *)
Record struct_log : Type := {
  sl_op : string;
  sl_depth : Z;
  sl_stack : option (list string);
  sl_memory : option (list string)
}.

(** [int(s, 16)] on an unsigned hexadecimal word, with or without [0x].
    (A sign, blanks or underscores, which [int] also reads, do not occur in
    the words of a trace and raise [ValueError] here.) *)
Definition int16 (s : string) : result Z :=
  let digits := strip_0x s in
  if (String.length digits =? 0)%nat then Raise ValueError
  else if forallb (fun c => bool_decide (is_Some (ascii_to_digit c))) (list_ascii_of_string digits)
  then Ok (Z.of_N (HexString.Raw.to_N digits 0))
  else Raise ValueError.

(** [int(c)] on one character. *)
Definition int_of_char (c : ascii) : result Z :=
  if is_digit c then Ok (Z.of_N (N_of_ascii c) - 48) else Raise ValueError.

(** [l[-k]] for [k >= 1]. *)
Definition from_end {A} (k : nat) (l : list A) : result A :=
  match rev l !! (k - 1)%nat with
  | Some x => Ok x
  | None => Raise IndexError
  end.

(** [s[-1]] on a string. *)
Definition last_char (s : string) : result ascii :=
  from_end 1 (list_ascii_of_string s).

(** [s[-40:]]. *)
Definition last40 (s : string) : string :=
  String.substring (String.length s - 40) 40 s.

(** [l[start:stop:-1]], with Python's adjustment of the two bounds. *)
Definition slice_backward {A} (l : list A) (start stop : Z) : list A :=
  let len := Z.of_nat (length l) in
  let adjust i :=
    if i <? 0 then (if i + len <? 0 then -1 else i + len)
    else (if len <=? i then len - 1 else i) in
  let start := adjust start in
  let stop := adjust stop in
  rev (take (Z.to_nat (start - stop)) (drop (Z.to_nat (stop + 1)) l)).

(** [l[lo:hi]] for bounds that are not negative. *)
Definition slice {A} (l : list A) (lo hi : Z) : list A :=
  take (Z.to_nat (hi - lo)) (drop (Z.to_nat lo) l).

Definition is_LOG (step : struct_log) : bool := String.prefix "LOG" (sl_op step).

Definition is_CREATE (step : struct_log) : bool :=
  String.eqb (sl_op step) "CREATE" || String.eqb (sl_op step) "CREATE2".

(** The handlers of the first [try] of the loop. *)
Definition except_stack {A} (r : result A) : result A :=
  match r with
  | Raise (KeyError _) => Raise (StructLogError "StructLog has no stack")
  | Raise IndexError | Raise TypeError => Raise (StructLogError "Malformed stack")
  | _ => r
  end.

(** The first [try] block: offset, length and topics of a LOG step. *)
Definition log_operands (step : struct_log) : result (Z * Z * list string) :=
  except_stack
    (let* stack := getitem "stack" (sl_stack step) in
     let* top := from_end 1 stack in
     let* offset := int16 top in
     let* stack := getitem "stack" (sl_stack step) in
     let* second := from_end 2 stack in
     let* length := int16 second in
     let* suffix := last_char (sl_op step) in
     let* topic_len := int_of_char suffix in
     let* stack := getitem "stack" (sl_stack step) in
     let* topics :=
       for_each (fun i => _0xstring (PStr i)) (slice_backward stack (-3) (-3 - topic_len)) in
     Ok (offset, length, topics)).

(** The second [try] block: the data of a LOG step. *)
Definition log_data (step : struct_log) (offset length : Z) : result string :=
  except_KeyError_TypeError
    (let* memory := getitem "memory" (sl_memory step) in
     let* bytes := HexBytes (PStr (String.concat "" memory)) in
     _0xstring (PStr (hexbytes_hex (slice bytes offset (offset + length)))))
    (StructLogError "Malformed memory").

(** The address bookkeeping of one iteration; [later] is [struct_logs[i:]]. *)
Definition track_address (later : list struct_log) (last_step step : struct_log)
    (address_list : list (option string)) : result (list (option string)) :=
  if sl_depth last_step <? sl_depth step then
    if is_CREATE last_step then
      match find (fun x => sl_depth x =? sl_depth last_step) later with
      | None => Raise StopIteration
      | Some out_step =>
          let* stack := getitem "stack" (sl_stack out_step) in
          let* word := from_end 1 stack in
          let* address := to_checksum_address (PStr ("0x" ++ last40 word)) in
          Ok (address_list ++ [Some address])%list
      end
    else
      let* stack := getitem "stack" (sl_stack last_step) in
      let* word := from_end 2 stack in
      let* address := to_checksum_address (PStr ("0x" ++ last40 word)) in
      Ok (address_list ++ [Some address])%list
  else if sl_depth step <? sl_depth last_step then
    match pop address_list with
    | None => Raise IndexError
    | Some (_, address_list) => Ok address_list
    end
  else Ok address_list.

(** The event built for a LOG step. *)
Definition log_event (topic_map : gmap string schema) (allow_undecoded : bool)
    (topics : list string) (data : string) (address_list : list (option string))
  : result event_record :=
  if undecodable topics topic_map then
    if negb allow_undecoded
    then Raise (UnknownEvent "Log contains undecodable event")
    else
      let* address := from_end 1 address_list in
      Ok {| ev_name := None; ev_topics := Some topics; ev_data := RawData data;
            ev_decoded := false; ev_address := address; ev_extra := ∅ |}
  else
    match topics with
    | [] => Raise IndexError
    | topic0 :: topics =>
        let* abi := getitem topic0 (topic_map !! topic0) in
        let* fields := _decode (s_inputs abi) (PStr <$> topics) (PStr data) in
        let* address := from_end 1 address_list in
        Ok {| ev_name := Some (s_name abi); ev_topics := None; ev_data := Fields fields;
              ev_decoded := true; ev_address := address; ev_extra := ∅ |}
    end.

(** The state of the walk: the events so far and the address stack. *)
Record walk_state : Type := {
  ws_events : list event_record;
  ws_address_list : list (option string)
}.

(** The loop of [decode_traceTransaction] from index [i] on: [later] is
    [struct_logs[i:]] and [tracking] is [initial_address is not None]. *)
Fixpoint walk (topic_map : gmap string schema) (allow_undecoded tracking : bool)
    (later : list struct_log) (last_step : struct_log) (st : walk_state)
  : result walk_state :=
  match later with
  | [] => Ok st
  | step :: rest =>
      let* address_list :=
        if tracking then track_address later last_step step (ws_address_list st)
        else Ok (ws_address_list st) in
      if negb (is_LOG step) then
        walk topic_map allow_undecoded tracking rest step
          {| ws_events := ws_events st; ws_address_list := address_list |}
      else
        let* (offset, length, topics) := log_operands step in
        let* data := log_data step offset length in
        let* result := log_event topic_map allow_undecoded topics data address_list in
        walk topic_map allow_undecoded tracking rest step
          {| ws_events := ws_events st ++ [result]; ws_address_list := address_list |}
  end.

(** The walk with its final state; [decode_traceTransaction] returns the events. *)
Definition trace_walk (struct_logs : list struct_log) (topic_map : gmap string schema)
    (allow_undecoded : bool) (initial_address : option pyval) : result walk_state :=
  let* address_list :=
    match initial_address with
    | Some a => let* c := to_checksum_address a in Ok [Some c]
    | None => Ok [None]
    end in
  match struct_logs with
  | [] => Raise IndexError
  | last_step :: later =>
      walk topic_map allow_undecoded (bool_decide (is_Some initial_address)) later last_step
        {| ws_events := []; ws_address_list := address_list |}
  end.

Definition decode_traceTransaction (struct_logs : list struct_log)
    (topic_map : gmap string schema) (allow_undecoded : bool)
    (initial_address : option pyval) : result (list event_record) :=
  let* st := trace_walk struct_logs topic_map allow_undecoded initial_address in
  Ok (ws_events st).

End Engine.

(** ** An instance to run the definitions

    A stand-in for the three libraries: the hash keeps its input, the
    checksum keeps a string, and the codec reads the two static word types
    [uint256] and [bytes32] the way [eth_abi.decode] does, 32 bytes each,
    failing with [InsufficientDataBytes] on a short buffer. *)

(** The number a run of bytes spells, most significant byte first. *)
Fixpoint be_int (b : list byte) (acc : Z) : Z :=
  match b with
  | [] => acc
  | x :: r => be_int r (256 * acc + Z.of_N (Byte.to_N x))
  end.

Definition known_type (ty : string) : bool :=
  String.eqb ty "uint256" || String.eqb ty "bytes32".

(** One word per type, read from the front of the buffer. *)
Fixpoint read_words (types : list string) (buf : list byte) : result (list pyval) :=
  match types with
  | [] => Ok []
  | ty :: rest =>
      if (length buf <? 32)%nat then Raise InsufficientDataBytes
      else
        let word := take 32 buf in
        let v := if String.eqb ty "uint256" then PInt (be_int word 0) else PBytes word in
        let* vs := read_words rest (drop 32 buf) in
        Ok (v :: vs)
  end.

(** The decoders are looked up first, then the words are read. *)
Definition word_decode (types : list string) (buf : list byte) : result (list pyval) :=
  if forallb known_type types then read_words types buf else Raise NoEntriesFound.

Definition test_externals : Externals := {|
  keccak := fun b => b;
  to_checksum_address := fun a =>
    match a with
    | PStr s => Ok s
    | PBytes b => Ok ("0x" ++ hexlify b)
    | _ => Raise TypeError
    end;
  eth_abi_decode := word_decode;
  hex_prefix := "0x"
|}.

Definition uint256 (name : string) (indexed : bool) : param :=
  Param (Some name) (Some "uint256") (Some indexed) None.

(** ** Definitions used to state the properties *)

(** [mentions sub s]: [sub in s]. *)
Fixpoint mentions (sub s : string) : bool :=
  String.prefix sub s ||
  match s with
  | String _ r => mentions sub r
  | "" => false
  end.

(** A step with what the address bookkeeping would read removed: the depth,
    and the stack of a step that is not a LOG. *)
Definition scrub (step : struct_log) : struct_log :=
  {| sl_op := sl_op step; sl_depth := 0;
     sl_stack := if is_LOG step then sl_stack step else None;
     sl_memory := sl_memory step |}.

(** The same libraries with another checksum function. *)
Definition with_checksum (E : Externals) (f : pyval -> result string) : Externals :=
  {| keccak := @keccak E; to_checksum_address := f;
     eth_abi_decode := @eth_abi_decode E; hex_prefix := @hex_prefix E |}.

(** The canonical type of a parameter in the words of the specification:
    the declared type unchanged, or for a tuple the canonical types of its
    components, joined by commas between parentheses, then the array suffix
    that followed the word [tuple]. *)
Fixpoint spec_canonical_type (i : param) : string :=
  match i with
  | Param _ ty _ comps =>
      let ty := default "" ty in
      if String.prefix "tuple" ty then
        "(" ++ String.concat ","
                 match comps with
                 | Some cs => map spec_canonical_type cs
                 | None => []
                 end
            ++ ")" ++ String.substring 5 (String.length ty - 5) ty
      else ty
  end.

(** The array suffix of a tuple type: nothing, or a size between brackets
    (no size for a dynamic array). *)
Definition array_suffix (sfx : string) : Prop :=
  sfx = "" \/
  exists size, sfx = "[" ++ size ++ "]" /\ forallb is_digit (list_ascii_of_string size) = true.

(** Parameters as an ABI has them: every entry has a type, and an entry
    whose type is [tuple] with an array suffix has components, well formed
    in turn. *)
Inductive well_formed : param -> Prop :=
| wf_plain n ty x comps :
    String.prefix "tuple" ty = false ->
    well_formed (Param n (Some ty) x comps)
| wf_tuple n sfx x cs :
    array_suffix sfx ->
    Forall well_formed cs ->
    well_formed (Param n (Some ("tuple" ++ sfx)) x (Some cs)).

(** An input with its [indexed] flag cleared. *)
Definition as_unindexed (i : param) : param :=
  Param (p_name i) (p_type i) (Some false) (p_components i).

(** The entry of the result for an input whose value was read from the
    data: bytes are shown in hexadecimal, other values are kept. *)
Definition data_field `{Ext : Externals} (i : param) (value : pyval) : field :=
  {| f_name := default "" (p_name i); f_type := default "" (p_type i);
     f_components := p_components i;
     f_value := match value with
                | PBytes b => PStr (hexbytes_hex b)
                | _ => value
                end;
     f_decoded := true |}.

(** Induction on a parameter with the hypothesis on every component. *)
Section ParamInduction.
Variable P : param -> Prop.
Hypothesis leaf : forall n t x, P (Param n t x None).
Hypothesis node : forall n t x cs, Forall P cs -> P (Param n t x (Some cs)).

Fixpoint param_nested_ind (i : param) : P i :=
  match i with
  | Param n t x None => leaf n t x
  | Param n t x (Some cs) =>
      node n t x cs
        ((fix all (l : list param) : Forall P l :=
            match l with
            | [] => List.Forall_nil P
            | y :: r => List.Forall_cons P y r (param_nested_ind y) (all r)
            end) cs)
  end.
End ParamInduction.

(** ** Sample inputs *)

Definition sample_map : gmap string schema :=
  {[ "0x01" := {| s_name := "Value"; s_inputs := [uint256 "v" false] |};
     "0x02" := {| s_name := "Pair"; s_inputs := [uint256 "a" true; uint256 "b" true] |};
     "0x03" := {| s_name := "Mixed"; s_inputs := [uint256 "a" true; uint256 "b" false] |} ]}.

(** A word of 32 bytes holding a small number. *)
Definition word (n : byte) : list byte := repeat x00%byte 31 ++ [n].

(** A [Value] log whose data is the empty marker. *)
Definition empty_data_log : raw_log :=
  {| l_address := PStr "0xaa"; l_topics := [PStr "0x01"];
     l_data := PStr "0x"; l_extra := ∅ |}.

(** The same log with 32 zero bytes of data. *)
Definition zero_data_log : raw_log :=
  {| l_address := PStr "0xaa"; l_topics := [PStr "0x01"];
     l_data := PBytes (word x00%byte); l_extra := ∅ |}.

(** A [Mixed] log without topics for its indexed input. *)
Definition no_topics_log : raw_log :=
  {| l_address := PStr "0xaa"; l_topics := [PStr "0x03"];
     l_data := PBytes (word x05%byte ++ word x09%byte);
     l_extra := {[ "logIndex" := PInt 3 ]} |}.

(** A [Pair] log with one topic for its two indexed inputs. *)
Definition one_topic_log : raw_log :=
  {| l_address := PStr "0xaa"; l_topics := [PStr "0x02"; PBytes (word x05%byte)];
     l_data := PStr "0x"; l_extra := ∅ |}.

(** A log whose topic is not in the map. *)
Definition unknown_log : raw_log :=
  {| l_address := PStr "0xaa"; l_topics := [PStr "0x7f"];
     l_data := PStr "0x1234"; l_extra := {[ "blockNumber" := PInt 8 ]} |}.

Definition push_step : struct_log :=
  {| sl_op := "PUSH1"; sl_depth := 1; sl_stack := Some ["60"]; sl_memory := Some [] |}.

(** A LOG2 whose stack holds the offset, the length and a single topic. *)
Definition short_stack_step : struct_log :=
  {| sl_op := "LOG2"; sl_depth := 1; sl_stack := Some ["07"; "0"; "0"];
     sl_memory := Some [] |}.

(** A LOG1 of the [Value] event with the number 7 in memory. *)
Definition value_step : struct_log :=
  {| sl_op := "LOG1"; sl_depth := 2; sl_stack := Some ["01"; "20"; "0"];
     sl_memory := Some ["0000000000000000000000000000000000000000000000000000000000000007"] |}.

(** Two descriptions of one event that differ in names and flags. *)
Definition pair_abi : abi_entry :=
  {| e_type := Some "event"; e_name := Some "Pair";
     e_inputs := Some [uint256 "a" true; uint256 "b" true]; e_anonymous := None |}.

Definition pair_abi' : abi_entry :=
  {| e_type := None; e_name := Some "Pair";
     e_inputs := Some [Param None (Some "uint256") None None; uint256 "y" false];
     e_anonymous := Some false |}.

(** A tuple array holding a number and a tuple. *)
Definition nested_params : list param :=
  [Param (Some "t") (Some "tuple[2]") (Some false)
     (Some [uint256 "a" false;
            Param (Some "u") (Some "tuple") None (Some [uint256 "x" false; uint256 "y" false])]);
   uint256 "z" true].

(** The entries of an ABI that [get_topic_map] keeps. *)
Definition is_named_event (e : abi_entry) : bool :=
  match e_type e with
  | Some ty => String.eqb ty "event" && negb (default false (e_anonymous e))
  | None => false
  end.

(** The entry for an indexed input read from a topic of bytes [encoded]:
    as for a value of the data when the topic was decoded to [Some v], and
    otherwise the topic itself in hexadecimal, marked as not decoded. *)
Definition topic_field `{Ext : Externals} (i : param) (encoded : list byte)
    (value : option pyval) : field :=
  match value with
  | Some v => data_field i v
  | None =>
      {| f_name := default "" (p_name i); f_type := default "" (p_type i);
         f_components := p_components i;
         f_value := PStr (hexbytes_hex encoded); f_decoded := false |}
  end.

(** The entries in the order of the inputs: an indexed input takes the
    next topic, any other input the next value of the data. *)
Fixpoint merge_fields `{Ext : Externals} (inputs : list param)
    (from_topics : list (list byte * option pyval)) (from_data : list pyval) : list field :=
  match inputs with
  | [] => []
  | i :: rest =>
      if default false (p_indexed i) then
        match from_topics with
        | (encoded, value) :: more => topic_field i encoded value :: merge_fields rest more from_data
        | [] => []
        end
      else
        match from_data with
        | v :: more => data_field i v :: merge_fields rest from_topics more
        | [] => []
        end
  end.

(** What the codec makes of the topic of an indexed input: its bytes, and
    the value decoded from them, or no value when the codec raises one of
    the three exceptions that [_decode] takes for a type of several words. *)
Definition topic_outcome `{Ext : Externals} (i : param) (topic : pyval)
    (out : list byte * option pyval) : Prop :=
  exists ty, p_type i = Some ty /\ HexBytes topic = Ok (fst out) /\
    match snd out with
    | Some v => exists more, eth_abi_decode [ty] (fst out) = Ok (v :: more)
    | None =>
        eth_abi_decode [ty] (fst out) = Raise InsufficientDataBytes \/
        eth_abi_decode [ty] (fst out) = Raise NoEntriesFound \/
        eth_abi_decode [ty] (fst out) = Raise OverflowError
    end.

(** What an entry of the result owes to its input. *)
Definition entry_of (i : param) (f : field) : Prop :=
  p_name i = Some (f_name f) /\ p_type i = Some (f_type f) /\
  f_components f = p_components i /\
  (forall b, f_value f <> PBytes b) /\
  (f_decoded f = false -> p_indexed i = Some true /\ exists s, f_value f = PStr s).

(** The depths of a trace as calls make them: never under the depth [d0]
    of its first step, and changing by one at most from a step to the next. *)
Fixpoint depths_of_calls (d0 : Z) (last_step : struct_log) (later : list struct_log) : Prop :=
  match later with
  | [] => True
  | step :: rest =>
      d0 <= sl_depth step /\ Z.abs (sl_depth step - sl_depth last_step) <= 1 /\
      depths_of_calls d0 step rest
  end.

(** ** More sample inputs *)

(** The [Pair] event declared a second time, with other names and flags. *)
Definition pair_abi_again : abi_entry :=
  {| e_type := Some "event"; e_name := Some "Pair";
     e_inputs := Some [uint256 "x" false; uint256 "y" false]; e_anonymous := None |}.

(** An ABI with the event, a function and an anonymous event without inputs. *)
Definition sample_abi : list abi_entry :=
  [pair_abi;
   {| e_type := Some "function"; e_name := Some "f"; e_inputs := None; e_anonymous := None |};
   {| e_type := Some "event"; e_name := None; e_inputs := None; e_anonymous := Some true |}].

(** The topic of [Pair(uint256,uint256)] under the stand-in hash. *)
Definition pair_topic : string := "0x506169722875696e743235362c75696e7432353629".

(** An indexed string, whose topic the sample codec cannot decode, and a number. *)
Definition string_inputs : list param :=
  [Param (Some "s") (Some "string") (Some true) None; uint256 "b" false].

(** An input without the [indexed] key. *)
Definition unflagged_inputs : list param :=
  [Param (Some "a") (Some "uint256") None None].

(** A call into the address [bb], a LOG1 inside the call and one after it. *)
Definition call_step : struct_log :=
  {| sl_op := "CALL"; sl_depth := 1; sl_stack := Some ["0"; "bb"; "ffff"];
     sl_memory := Some [] |}.

Definition value_step_after : struct_log :=
  {| sl_op := "LOG1"; sl_depth := 1; sl_stack := Some ["01"; "20"; "0"];
     sl_memory := Some ["0000000000000000000000000000000000000000000000000000000000000007"] |}.

Definition log0_step : struct_log :=
  {| sl_op := "LOG0"; sl_depth := 1; sl_stack := Some ["20"; "10"];
     sl_memory := Some ["0000000000000000000000000000000000000000000000000000000000000007"] |}.

(** A CREATE whose frame is still open when the trace ends. *)
Definition create_step : struct_log :=
  {| sl_op := "CREATE"; sl_depth := 1; sl_stack := Some ["0"; "0"; "0"];
     sl_memory := Some [] |}.

Definition inner_step : struct_log :=
  {| sl_op := "PUSH1"; sl_depth := 2; sl_stack := Some []; sl_memory := Some [] |}.

(** ** Logs in the words of the specification *)

(** A log that [decode_logs] does not decode: it has no topics, or its
    first topic, as a hexadecimal string, is not a key of the map. *)
Definition no_known_topic `{Ext : Externals} (item : raw_log) (tm : gmap string schema) : Prop :=
  l_topics item = [] \/
  exists topic0 rest key,
    l_topics item = topic0 :: rest /\ _0xstring topic0 = Ok key /\ tm !! key = None.

(** Any other log: its first topic is a key of the map. *)
Definition known_topic `{Ext : Externals} (item : raw_log) (tm : gmap string schema) : Prop :=
  exists topic0 rest key abi,
    l_topics item = topic0 :: rest /\ _0xstring topic0 = Ok key /\ tm !! key = Some abi.

(** The placeholder for a log that is not decoded: no name, not decoded,
    the topics and the data of the log as hexadecimal strings, its address
    with a checksum and, of the other keys of the log, the three of the
    passthrough metadata. *)
Definition placeholder_of `{Ext : Externals} (item : raw_log) (ev : event_record) : Prop :=
  exists topics data address,
    for_each _0xstring (l_topics item) = Ok topics /\
    _0xstring (l_data item) = Ok data /\
    to_checksum_address (l_address item) = Ok address /\
    ev_name ev = None /\ ev_decoded ev = false /\
    ev_topics ev = Some topics /\ ev_data ev = RawData data /\
    ev_address ev = Some address /\
    forall k, ev_extra ev !! k =
              if bool_decide (k ∈ ["logIndex"; "blockNumber"; "transactionIndex"])
              then l_extra item !! k else None.

(** A [Pair] log with three topics for its two indexed inputs. *)
Definition three_topic_log : raw_log :=
  {| l_address := PStr "0xaa";
     l_topics := [PStr "0x02"; PBytes (word x05%byte); PBytes (word x06%byte);
                  PBytes (word x07%byte)];
     l_data := PStr "0x"; l_extra := ∅ |}.

(** An array of three arrays of two structures, and an array of two
    structures. *)
Definition matrix_param : param :=
  Param (Some "s") (Some "tuple[2][3]") (Some false) (Some [uint256 "a" false]).

Definition row_param : param :=
  Param (Some "s") (Some "tuple[2]") (Some false) (Some [uint256 "a" false]).

Definition matrix_abi : abi_entry :=
  {| e_type := Some "event"; e_name := Some "E";
     e_inputs := Some [matrix_param]; e_anonymous := None |}.

Definition row_abi : abi_entry :=
  {| e_type := Some "event"; e_name := Some "E";
     e_inputs := Some [row_param]; e_anonymous := None |}.

(** * Properties *)

Local Open Scope list_scope.

(** ** Results *)

Lemma bind_Ok {A B} (r : result A) (k : A -> result B) (b : B) :
  bind r k = Ok b <-> exists a, r = Ok a /\ k a = Ok b.
Proof.
  destruct r as [a|e]; simpl; split.
  - intros Hk. exists a. auto.
  - intros (a' & Ha & Hk). congruence.
  - discriminate.
  - intros (a' & Ha & _). discriminate.
Qed.

(** Splits a hypothesis [bind r k = Ok b] into its two runs. *)
Tactic Notation "bind_inv" hyp(H) "as" simple_intropattern(a) ident(Ha) :=
  apply bind_Ok in H; destruct H as (a & Ha & H).

Lemma for_each_length {A B} (f : A -> result B) (l : list A) (ys : list B) :
  for_each f l = Ok ys -> length ys = length l.
Proof.
  revert ys. induction l as [|x l IH]; intros ys; simpl.
  - intros [= <-]. reflexivity.
  - destruct (f x) as [y|e]; [|discriminate].
    destruct (for_each f l) as [ys'|e]; [|discriminate].
    intros [= <-]. simpl. f_equal. apply IH. reflexivity.
Qed.

Lemma pop_snoc {A} (l : list A) (x : A) : pop (l ++ [x]) = Some (x, l).
Proof. unfold pop. rewrite rev_app_distr. simpl. rewrite rev_involutive. reflexivity. Qed.

(** The slice that reads the topics: at most [k] words, from the third
    word from the top downwards. *)
Lemma slice_backward_topics {A} (stack : list A) (k : Z) :
  0 <= k -> slice_backward stack (-3) (-3 - k) = take (Z.to_nat k) (drop 2 (rev stack)).
Proof.
  intros Hk. unfold slice_backward. cbv zeta.
  rewrite skipn_rev. set (n := length stack).
  replace (-3 <? 0) with true by reflexivity.
  replace (-3 - k <? 0) with true by (symmetry; apply Z.ltb_lt; lia).
  destruct (Z.ltb_spec (-3 + Z.of_nat n) 0) as [Hs|Hs].
  - replace (-3 - k + Z.of_nat n <? 0) with true by (symmetry; apply Z.ltb_lt; lia).
    replace (Z.to_nat (-1 - -1)) with 0%nat by lia.
    replace (n - 2)%nat with 0%nat by lia.
    destruct (Z.to_nat k); reflexivity.
  - destruct (Z.ltb_spec (-3 - k + Z.of_nat n) 0) as [Hp|Hp].
    + replace (Z.to_nat (-3 + Z.of_nat n - -1)) with (n - 2)%nat by lia.
      replace (Z.to_nat (-1 + 1)) with 0%nat by lia. cbn [drop].
      rewrite (take_ge (rev _)); [reflexivity|]. rewrite length_rev, length_take. lia.
    + replace (Z.to_nat (-3 + Z.of_nat n - (-3 - k + Z.of_nat n))) with (Z.to_nat k) by lia.
      replace (Z.to_nat (-3 - k + Z.of_nat n + 1)) with (n - 2 - Z.to_nat k)%nat by lia.
      rewrite firstn_rev, length_take. fold n.
      replace ((n - 2) `min` n - Z.to_nat k)%nat with (n - 2 - Z.to_nat k)%nat by lia.
      rewrite take_drop_commute.
      replace (n - 2 - Z.to_nat k + Z.to_nat k)%nat with (n - 2)%nat by lia.
      reflexivity.
Qed.

Lemma int_of_char_range (c : ascii) (k : Z) : int_of_char c = Ok k -> 0 <= k <= 9.
Proof.
  unfold int_of_char, is_digit. destruct (_ && _) eqn:Hd; [|discriminate].
  intros [= <-]. apply andb_true_iff in Hd as [H1 H2].
  apply N.leb_le in H1, H2. lia.
Qed.

Section TraceProperties.
Context `{Ext : Externals}.

(** The topics read for a LOG step are as many as its name says or as the
    stack holds under the offset and the length, whichever is less. *)
Lemma log_operands_topic_count step stack offset len topics :
  sl_stack step = Some stack ->
  log_operands step = Ok (offset, len, topics) ->
  exists suffix topic_len,
    last_char (sl_op step) = Ok suffix /\ int_of_char suffix = Ok topic_len /\
    length topics = Nat.min (Z.to_nat topic_len) (length stack - 2).
Proof.
  intros Hstack. unfold log_operands. rewrite Hstack. cbn [getitem bind].
  intros H.
  assert (Hin : forall A (r : result A) a, except_stack r = Ok a -> r = Ok a).
  { intros A [a'|[]] a; cbn; congruence. }
  apply Hin in H.
  bind_inv H as top Htop. bind_inv H as offset' Hoff. bind_inv H as second Hsec.
  bind_inv H as len' Hlen. bind_inv H as suffix Hsuf. bind_inv H as topic_len Hk.
  bind_inv H as topics' Htopics. injection H as <- <- <-.
  exists suffix, topic_len. split; [exact Hsuf|]. split; [exact Hk|].
  apply for_each_length in Htopics. rewrite Htopics.
  rewrite slice_backward_topics by (apply int_of_char_range in Hk; lia).
  rewrite length_take, length_drop, length_rev. reflexivity.
Qed.

(** ** The trace walker *)

Lemma log_event_address tm allow topics data al ev :
  log_event tm allow topics data al = Ok ev -> from_end 1 al = Ok (ev_address ev).
Proof.
  unfold log_event. destruct (undecodable topics tm).
  - destruct allow; simpl; [|discriminate].
    intros H. bind_inv H as address Ha. injection H as <-. exact Ha.
  - destruct topics as [|topic0 topics]; [discriminate|].
    intros H. bind_inv H as abi Habi. bind_inv H as fields Hf. bind_inv H as address Ha.
    injection H as <-. exact Ha.
Qed.

(** Without tracking the address stack is never touched, and every new
    event carries its top. *)
Lemma walk_untracked tm allow later last_step st st' :
  walk tm allow false later last_step st = Ok st' ->
  ws_address_list st' = ws_address_list st /\
  exists new, ws_events st' = ws_events st ++ new /\
    Forall (fun ev => from_end 1 (ws_address_list st) = Ok (ev_address ev)) new.
Proof.
  revert last_step st. induction later as [|step rest IH]; intros last_step st; simpl.
  - intros [= <-]. split; [reflexivity|]. exists []. rewrite app_nil_r. auto.
  - destruct (is_LOG step); simpl.
    + intros H. bind_inv H as [[offset len] topics] Hops.
      bind_inv H as data Hdata. bind_inv H as ev Hev.
      apply IH in H. simpl in H. destruct H as (Hal & new & Hevs & Hnew).
      split; [exact Hal|]. exists (ev :: new). split.
      * rewrite Hevs, <- app_assoc. reflexivity.
      * constructor; [|exact Hnew]. eapply log_event_address. exact Hev.
    + intros H. apply IH in H. exact H.
Qed.

Lemma walk_events_length tm allow tracking later last_step st st' :
  walk tm allow tracking later last_step st = Ok st' ->
  length (ws_events st') = (length (ws_events st) + length (List.filter is_LOG later))%nat.
Proof.
  revert last_step st. induction later as [|step rest IH]; intros last_step st; simpl.
  - intros [= <-]. lia.
  - intros H. bind_inv H as al Hal. destruct (is_LOG step); simpl in *.
    + bind_inv H as [[offset len] topics] Hops.
      bind_inv H as data Hdata. bind_inv H as ev Hev. apply IH in H. simpl in H.
      rewrite length_app in H. simpl in H. lia.
    + apply IH in H. exact H.
Qed.

Lemma is_LOG_scrub step : is_LOG (scrub step) = is_LOG step.
Proof. reflexivity. Qed.

Lemma log_operands_scrub step : is_LOG step = true -> log_operands (scrub step) = log_operands step.
Proof. intros H. unfold log_operands, scrub. simpl. rewrite H. reflexivity. Qed.

Lemma log_data_scrub step offset len : log_data (scrub step) offset len = log_data step offset len.
Proof. reflexivity. Qed.

Lemma walk_scrub tm allow later last_step last_step' st :
  walk tm allow false (scrub <$> later) last_step' st = walk tm allow false later last_step st.
Proof.
  revert last_step last_step' st.
  induction later as [|step rest IH]; intros last_step last_step' st; [reflexivity|].
  rewrite fmap_cons. cbn [walk bind]. rewrite is_LOG_scrub.
  destruct (is_LOG step) eqn:Hlog; cbn [negb].
  - rewrite (log_operands_scrub step Hlog).
    destruct (log_operands step) as [[[offset len] topics]|e]; cbn [bind]; [|reflexivity].
    rewrite log_data_scrub.
    destruct (log_data step offset len) as [data|e]; cbn [bind]; [|reflexivity].
    destruct (log_event tm allow topics data (ws_address_list st)) as [ev|e];
      cbn [bind]; [|reflexivity].
    apply IH.
  - apply IH.
Qed.

Lemma walk_checksum f tm allow later last_step st :
  walk (Ext:=with_checksum Ext f) tm allow false later last_step st
  = walk tm allow false later last_step st.
Proof.
  revert last_step st. induction later as [|step rest IH]; intros last_step st; [reflexivity|].
  cbn [walk bind].
  change (@log_operands (with_checksum Ext f)) with (@log_operands Ext).
  change (@log_data (with_checksum Ext f)) with (@log_data Ext).
  change (@log_event (with_checksum Ext f)) with (@log_event Ext).
  destruct (negb (is_LOG step)); [apply IH|].
  destruct (log_operands step) as [[[offset len] topics]|e]; cbn [bind]; [|reflexivity].
  destruct (log_data step offset len) as [data|e]; cbn [bind]; [|reflexivity].
  destruct (log_event tm allow topics data (ws_address_list st)) as [ev|e];
    cbn [bind]; [|reflexivity].
  apply IH.
Qed.

(** The first iteration reads from [last_step] its depth, whether it is a
    CREATE, and its stack; nothing else. *)
Lemma walk_last_step tm allow tracking later s0 s0' st :
  sl_depth s0 = sl_depth s0' -> sl_stack s0 = sl_stack s0' -> is_CREATE s0 = is_CREATE s0' ->
  walk tm allow tracking later s0 st = walk tm allow tracking later s0' st.
Proof.
  intros Hd Hs Hc. destruct later as [|step rest]; [reflexivity|].
  cbn [walk]. unfold track_address. rewrite Hd, Hs, Hc. reflexivity.
Qed.

(** C7: with [initial_address=None] the walk derives no address: the
    address stack is [[None]] at the end as at the start, every event it
    returns has [address = None], and the result is the same when the
    depths and the stacks of the steps that are not LOGs are removed from
    the trace, and whatever the checksum function is. *)
Theorem C7_no_address_derivation_without_initial_address
    (steps : list struct_log) (tm : gmap string schema) (allow : bool) :
  (forall st, trace_walk steps tm allow None = Ok st ->
     ws_address_list st = [None] /\
     Forall (fun ev => ev_address ev = None) (ws_events st)) /\
  (forall events, decode_traceTransaction steps tm allow None = Ok events ->
     Forall (fun ev => ev_address ev = None) events) /\
  decode_traceTransaction (scrub <$> steps) tm allow None
    = decode_traceTransaction steps tm allow None /\
  (forall f, decode_traceTransaction (Ext:=with_checksum Ext f) steps tm allow None
     = decode_traceTransaction steps tm allow None).
Proof.
  assert (Hwalk : forall st, trace_walk steps tm allow None = Ok st ->
     ws_address_list st = [None] /\
     Forall (fun ev => ev_address ev = None) (ws_events st)).
  { intros st. unfold trace_walk. cbn [bind].
    destruct steps as [|s0 later]; [discriminate|].
    intros H. apply walk_untracked in H. cbn in H.
    destruct H as (Hal & new & -> & Hnew). split; [exact Hal|].
    eapply Forall_impl; [exact Hnew|]. cbn. intros ev [= <-]. reflexivity. }
  split; [exact Hwalk|]. split; [|split].
  - intros events. unfold decode_traceTransaction. intros H.
    bind_inv H as st Hst. injection H as <-. apply (Hwalk st Hst).
  - unfold decode_traceTransaction, trace_walk. cbn [bind].
    destruct steps as [|s0 later]; [reflexivity|].
    rewrite fmap_cons. rewrite (walk_scrub tm allow later s0 (scrub s0)). reflexivity.
  - intros f. unfold decode_traceTransaction, trace_walk. cbn [bind].
    destruct steps as [|s0 later]; [reflexivity|].
    rewrite walk_checksum. reflexivity.
Qed.

(** C9: on an empty list of steps [decode_traceTransaction] returns
    nothing: reading [struct_logs[0]] raises [IndexError], which the
    function does not handle (an initial address the checksum function
    refuses fails before that, with that function's own exception). *)
Theorem C9_empty_trace_raises_IndexError
    (tm : gmap string schema) (allow : bool) (initial_address : option pyval) :
  (forall events, decode_traceTransaction [] tm allow initial_address <> Ok events) /\
  decode_traceTransaction [] tm allow None = Raise IndexError /\
  (forall a c, to_checksum_address a = Ok c ->
     decode_traceTransaction [] tm allow (Some a) = Raise IndexError).
Proof.
  split; [|split].
  - intros events. unfold decode_traceTransaction, trace_walk.
    destruct initial_address as [a|]; cbn [bind]; [|discriminate].
    destruct (to_checksum_address a); discriminate.
  - reflexivity.
  - intros a c Hc. unfold decode_traceTransaction, trace_walk. cbn [bind].
    rewrite Hc. reflexivity.
Qed.

(** C10: no event is emitted for the first step.  A trace of one step
    gives the empty list whatever the step is; in general the events are
    as many as the LOG steps after the first one, and the first step
    counts only through the three things [last_step] is read for: its
    depth, its stack, and whether it is a CREATE. *)
Theorem C10_first_step_emits_no_event (tm : gmap string schema) (allow : bool) :
  (forall s0, decode_traceTransaction [s0] tm allow None = Ok []) /\
  (forall s0 a c, to_checksum_address a = Ok c ->
     decode_traceTransaction [s0] tm allow (Some a) = Ok []) /\
  (forall s0 later initial_address events,
     decode_traceTransaction (s0 :: later) tm allow initial_address = Ok events ->
     length events = length (List.filter is_LOG later)) /\
  (forall s0 s0' later initial_address,
     sl_depth s0 = sl_depth s0' -> sl_stack s0 = sl_stack s0' ->
     is_CREATE s0 = is_CREATE s0' ->
     decode_traceTransaction (s0 :: later) tm allow initial_address
       = decode_traceTransaction (s0' :: later) tm allow initial_address).
Proof.
  split; [|split; [|split]].
  - reflexivity.
  - intros s0 a c Hc. unfold decode_traceTransaction, trace_walk. cbn [bind].
    rewrite Hc. reflexivity.
  - intros s0 later initial_address events. unfold decode_traceTransaction.
    intros H. bind_inv H as st Hst. injection H as <-.
    unfold trace_walk in Hst. bind_inv Hst as al Hal.
    apply walk_events_length in Hst. exact Hst.
  - intros s0 s0' later initial_address Hd Hs Hc.
    unfold decode_traceTransaction, trace_walk.
    destruct (match initial_address with
              | Some a => let* c := to_checksum_address a in Ok [Some c]
              | None => Ok [None]
              end) as [al|e]; cbn [bind]; [|reflexivity].
    rewrite (walk_last_step _ _ _ _ s0 s0' _ Hd Hs Hc). reflexivity.
Qed.

End TraceProperties.

(** ** Type signatures *)


Lemma param_type_eq n ty x comps :
  param_type (Param n ty x comps) =
  match ty with
  | None => Raise (KeyError "type")
  | Some ty =>
      match tuple_match ty with
      | Some group =>
          match comps with
          | None => Raise (KeyError "components")
          | Some cs =>
              let* inner := _params cs in
              Ok ("(" ++ String.concat "," inner ++ ")" ++ tuple_type_tail group)%string
          end
      | None => Ok ty
      end
  end.
Proof. reflexivity. Qed.

Lemma for_each_Forall {A B} (f : A -> result B) (g : A -> B) (l : list A) :
  Forall (fun x => f x = Ok (g x)) l -> for_each f l = Ok (g <$> l).
Proof.
  induction 1 as [|x l Hx _ IH]; [reflexivity|].
  cbn. rewrite Hx. cbn in IH. rewrite IH. reflexivity.
Qed.

Lemma substring_all (s : string) : String.substring 0 (String.length s) s = s.
Proof. induction s as [|c s IH]; [reflexivity|]. cbn. rewrite IH. reflexivity. Qed.

Lemma after_tuple (sfx : string) :
  String.substring 5 (String.length ("tuple" ++ sfx)%string - 5) ("tuple" ++ sfx)%string = sfx.
Proof.
  change ("tuple" ++ sfx)%string
    with (String "t" (String "u" (String "p" (String "l" (String "e" sfx))))).
  cbn. rewrite Nat.sub_0_r. apply substring_all.
Qed.

Lemma span_digits_bracket (size : string) :
  forallb is_digit (list_ascii_of_string size) = true ->
  span_digits (size ++ "]")%string = (size, "]").
Proof.
  induction size as [|c size IH]; [reflexivity|].
  cbn [list_ascii_of_string forallb]. intros [Hc Hs]%andb_true_iff.
  change (String c size ++ "]")%string with (String c (size ++ "]")).
  cbn [span_digits]. rewrite Hc, (IH Hs). reflexivity.
Qed.

Lemma tuple_match_suffix (sfx : string) :
  array_suffix sfx ->
  exists group, tuple_match ("tuple" ++ sfx) = Some group /\ tuple_type_tail group = sfx.
Proof.
  intros [->|(size & -> & Hd)].
  - exists None. split; reflexivity.
  - exists (Some size). split; [|reflexivity].
    unfold tuple_match. rewrite after_tuple.
    change ("[" ++ size ++ "]")%string with (String "[" (size ++ "]")).
    cbv beta iota. rewrite (span_digits_bracket size Hd). reflexivity.
Qed.

Lemma tuple_match_plain (ty : string) :
  String.prefix "tuple" ty = false -> tuple_match ty = None.
Proof. intros H. unfold tuple_match. rewrite H. reflexivity. Qed.

Lemma spec_canonical_type_tuple n sfx x cs :
  spec_canonical_type (Param n (Some ("tuple" ++ sfx)%string) x (Some cs))
  = ("(" ++ String.concat "," (spec_canonical_type <$> cs) ++ ")" ++ sfx)%string.
Proof.
  change ("tuple" ++ sfx)%string
    with (String "t" (String "u" (String "p" (String "l" (String "e" sfx))))).
  cbn. rewrite Nat.sub_0_r, substring_all.
  replace (String.prefix "" sfx) with true by (destruct sfx; reflexivity).
  reflexivity.
Qed.

Lemma param_type_well_formed (i : param) :
  well_formed i -> param_type i = Ok (spec_canonical_type i).
Proof.
  induction i as [n t x|n t x cs IH] using param_nested_ind; intros Hwf.
  - inversion Hwf as [n' ty x' comps Hty|]; subst.
    rewrite param_type_eq, (tuple_match_plain ty Hty). cbn. rewrite Hty. reflexivity.
  - inversion Hwf as [n' ty x' comps Hty|n' sfx x' cs' Hsfx Hcs]; subst.
    + rewrite param_type_eq, (tuple_match_plain ty Hty). cbn. rewrite Hty. reflexivity.
    + rewrite param_type_eq.
      destruct (tuple_match_suffix sfx Hsfx) as (group & -> & Htail).
      unfold _params. rewrite (for_each_Forall param_type spec_canonical_type cs).
      * cbn [bind]. rewrite spec_canonical_type_tuple, Htail. reflexivity.
      * rewrite Forall_forall in IH, Hcs |- *. intros c Hc. apply IH; [exact Hc|].
        apply Hcs. exact Hc.
Qed.

Section TopicProperties.
Context `{Ext : Externals}.

Lemma _params_well_formed (params : list param) :
  Forall well_formed params -> _params params = Ok (spec_canonical_type <$> params).
Proof.
  intros H. apply for_each_Forall.
  eapply Forall_impl; [exact H|]. intros i Hi. apply param_type_well_formed, Hi.
Qed.

Lemma get_log_topic_signature e name inputs types :
  truthy (e_anonymous e) = false -> e_name e = Some name ->
  e_inputs e = Some inputs -> _params inputs = Ok types ->
  get_log_topic e =
  _0xstring (PBytes (keccak (list_byte_of_string
                               (name ++ "(" ++ String.concat "," types ++ ")")%string))).
Proof.
  intros Ha Hn Hi Ht. unfold get_log_topic. rewrite Ha, Hi. cbn [getitem bind].
  rewrite Ht, Hn. reflexivity.
Qed.

(** C8: a tuple type with more than one array dimension loses every
    dimension after the first.  For the input [s] of type [tuple[2][3]]
    with one component [uint256], [_params] gives [(uint256)[2]], where
    the components between parentheses followed by the array suffix are
    [(uint256)[2][3]]; so the events [E(tuple[2][3])] and [E(tuple[2])]
    have the same topic, the hash of the signature [E((uint256)[2])],
    whatever the hash function.  What does hold: two descriptions that
    are not anonymous and have the same name and the same result of
    [_params] have the same topic, whatever else they hold, and on
    parameters whose tuple types have one array dimension at most
    [_params] is the canonical type of the specification at every depth
    of nesting. *)
Theorem C8_tuple_type_loses_the_dimensions_after_the_first :
  _params [matrix_param] = Ok ["(uint256)[2]"] /\
  spec_canonical_type matrix_param = "(uint256)[2][3]" /\
  _params [row_param] = Ok ["(uint256)[2]"] /\
  spec_canonical_type row_param = "(uint256)[2]" /\
  get_log_topic matrix_abi
    = _0xstring (PBytes (keccak (list_byte_of_string "E((uint256)[2])"))) /\
  get_log_topic matrix_abi = get_log_topic row_abi /\
  (forall e1 e2 name inputs1 inputs2 types,
     truthy (e_anonymous e1) = false -> truthy (e_anonymous e2) = false ->
     e_name e1 = Some name -> e_name e2 = Some name ->
     e_inputs e1 = Some inputs1 -> e_inputs e2 = Some inputs2 ->
     _params inputs1 = Ok types -> _params inputs2 = Ok types ->
     get_log_topic e1 = get_log_topic e2) /\
  (forall params, Forall well_formed params ->
     _params params = Ok (spec_canonical_type <$> params)).
Proof.
  split; [reflexivity|]. split; [reflexivity|]. split; [reflexivity|].
  split; [reflexivity|]. split; [reflexivity|]. split; [reflexivity|]. split.
  - intros e1 e2 name inputs1 inputs2 types Ha1 Ha2 Hn1 Hn2 Hi1 Hi2 Ht1 Ht2.
    rewrite (get_log_topic_signature e1 name inputs1 types Ha1 Hn1 Hi1 Ht1).
    rewrite (get_log_topic_signature e2 name inputs2 types Ha2 Hn2 Hi2 Ht2).
    reflexivity.
  - exact _params_well_formed.
Qed.

(** C5: a parameter without [type], or a tuple without [components],
    makes [_params] raise [KeyError].  [get_topic_map] and [_decode] turn
    it into [ABIError]; [get_log_topic] has no handler and lets the
    [KeyError] through. *)
Theorem C5_get_log_topic_lets_KeyError_through
    (name : string) (n : option string) (x : option bool)
    (c : option (list param)) (rest : list param) (data : pyval) :
  let no_type := Param n None x c in
  let no_components := Param n (Some "tuple") x None in
  let event inputs :=
    {| e_type := Some "event"; e_name := Some name;
       e_inputs := Some inputs; e_anonymous := None |} in
  _params (no_type :: rest) = Raise (KeyError "type") /\
  _params (no_components :: rest) = Raise (KeyError "components") /\
  get_log_topic (event (no_type :: rest)) = Raise (KeyError "type") /\
  get_log_topic (event (no_components :: rest)) = Raise (KeyError "components") /\
  get_topic_map [event (no_type :: rest)] = Raise (ABIError "Invalid ABI") /\
  _decode [Param (Some name) None (Some false) c] [] data = Raise (ABIError "Invalid ABI").
Proof. cbv zeta. repeat split; reflexivity. Qed.

End TopicProperties.

(** ** Logs *)

Section LogProperties.
Context `{Ext : Externals}.

Lemma for_each_app {A B} (f : A -> result B) (l1 l2 : list A) :
  for_each f (l1 ++ l2) =
  let* a := for_each f l1 in let* b := for_each f l2 in Ok (a ++ b).
Proof.
  induction l1 as [|x l1 IH]; cbn.
  - destruct (for_each f l2); reflexivity.
  - destruct (f x) as [y|e]; [|reflexivity]. cbn in IH. rewrite IH.
    destruct (for_each f l1) as [ys|e]; [|reflexivity]. cbn.
    destruct (for_each f l2); reflexivity.
Qed.

Lemma decode_logs_loop_for_each logs tm allow events :
  decode_logs_loop logs tm allow events =
  let* new := for_each (fun item => decode_logs_item item tm allow) logs in
  Ok (events ++ new).
Proof.
  revert events. induction logs as [|item rest IH]; intros events; cbn.
  - rewrite app_nil_r. reflexivity.
  - destruct (decode_logs_item item tm allow) as [ev|e]; [|reflexivity]. cbn.
    rewrite IH. cbn.
    destruct (for_each (fun item => decode_logs_item item tm allow) rest) as [new|e];
      [|reflexivity].
    cbn. rewrite <- app_assoc. reflexivity.
Qed.

Lemma decode_logs_for_each logs tm allow :
  decode_logs logs tm allow = for_each (fun item => decode_logs_item item tm allow) logs.
Proof.
  unfold decode_logs. rewrite decode_logs_loop_for_each.
  destruct (for_each _ logs); reflexivity.
Qed.

(** [append_additional_log_data] touches the extra keys only. *)
Lemma append_additional_log_data_fields extra ev entries :
  let r := append_additional_log_data extra ev entries in
  ev_name r = ev_name ev /\ ev_topics r = ev_topics ev /\ ev_data r = ev_data ev /\
  ev_decoded r = ev_decoded ev /\ ev_address r = ev_address ev.
Proof.
  revert ev. induction entries as [|k entries IH]; intros ev; cbn; [tauto|].
  destruct (extra !! k) as [v|]; [|apply IH].
  specialize (IH {| ev_name := ev_name ev; ev_topics := ev_topics ev;
                    ev_data := ev_data ev; ev_decoded := ev_decoded ev;
                    ev_address := ev_address ev;
                    ev_extra := <[k := v]> (ev_extra ev) |}).
  exact IH.
Qed.

Lemma append_additional_log_data_extra (extra : gmap string pyval) ev entries k :
  ev_extra (append_additional_log_data extra ev entries) !! k =
  if bool_decide (k ∈ entries) then
    match extra !! k with
    | Some v => Some v
    | None => ev_extra ev !! k
    end
  else ev_extra ev !! k.
Proof.
  revert ev. induction entries as [|k' entries IH]; intros ev; cbn [append_additional_log_data].
  - reflexivity.
  - rewrite IH. destruct (decide (k = k')) as [->|Hne].
    + rewrite (bool_decide_eq_true_2 (k' ∈ k' :: entries)) by (left).
      destruct (extra !! k') as [v|] eqn:Hk; cbn.
      * rewrite lookup_insert_eq. destruct (bool_decide (k' ∈ entries)); reflexivity.
      * destruct (bool_decide (k' ∈ entries)); reflexivity.
    + assert (Hiff : k ∈ k' :: entries <-> k ∈ entries).
      { rewrite elem_of_cons. tauto. }
      rewrite (bool_decide_ext _ _ Hiff).
      destruct (extra !! k') as [v|]; cbn; [|reflexivity].
      rewrite lookup_insert_ne by congruence. reflexivity.
Qed.

(** The test of the loop against the two kinds of logs. *)
Lemma undecodable_known_or_not item tm topics :
  for_each _0xstring (l_topics item) = Ok topics ->
  if undecodable topics tm then no_known_topic item tm else known_topic item tm.
Proof.
  destruct (l_topics item) as [|topic0 rest] eqn:Hl; cbn [for_each].
  - intros [= <-]. left. exact Hl.
  - destruct (_0xstring topic0) as [key|e] eqn:Hk; [|discriminate].
    destruct (for_each _0xstring rest) as [keys|e]; [|discriminate].
    intros [= <-]. cbn [undecodable].
    destruct (tm !! key) as [abi|] eqn:Hm.
    + rewrite bool_decide_eq_false_2 by discriminate.
      exists topic0, rest, key, abi. auto.
    + rewrite bool_decide_eq_true_2 by reflexivity.
      right. exists topic0, rest, key. auto.
Qed.

Lemma known_topic_not item tm : known_topic item tm -> no_known_topic item tm -> False.
Proof.
  intros (topic0 & rest & key & abi & Hl & Hk & Hm) [Hnil|(t & r & k & Hl' & Hk' & Hm')];
    congruence.
Qed.

Lemma undecodable_no_known_topic item tm topics :
  for_each _0xstring (l_topics item) = Ok topics -> no_known_topic item tm ->
  undecodable topics tm = true.
Proof.
  intros Ht Hno. pose proof (undecodable_known_or_not item tm topics Ht) as H.
  destruct (undecodable topics tm); [reflexivity|].
  destruct (known_topic_not item tm H Hno).
Qed.

Lemma undecodable_known_topic item tm topics :
  for_each _0xstring (l_topics item) = Ok topics -> known_topic item tm ->
  undecodable topics tm = false.
Proof.
  intros Ht Hk. pose proof (undecodable_known_or_not item tm topics Ht) as H.
  destruct (undecodable topics tm); [|reflexivity].
  destruct (known_topic_not item tm Hk H).
Qed.

(** The event built for a log that is not decoded is its placeholder. *)
Lemma placeholder_of_built item topics data address :
  for_each _0xstring (l_topics item) = Ok topics ->
  _0xstring (l_data item) = Ok data ->
  to_checksum_address (l_address item) = Ok address ->
  placeholder_of item
    (append_additional_log_data (l_extra item)
       {| ev_name := None; ev_topics := Some topics; ev_data := RawData data;
          ev_decoded := false; ev_address := Some address; ev_extra := ∅ |}
       ADD_LOG_ENTRIES).
Proof.
  intros Ht Hd Ha. exists topics, data, address.
  pose proof (append_additional_log_data_fields (l_extra item)
    {| ev_name := None; ev_topics := Some topics; ev_data := RawData data;
       ev_decoded := false; ev_address := Some address; ev_extra := ∅ |}
    ADD_LOG_ENTRIES) as (Hn & Htop & Hdata & Hdec & Haddr).
  repeat (split; [assumption|]).
  intros k. rewrite append_additional_log_data_extra. cbn [ev_extra].
  rewrite lookup_empty. unfold ADD_LOG_ENTRIES. destruct (bool_decide _); [|reflexivity].
  destruct (l_extra item !! k); reflexivity.
Qed.

(** What one turn of the loop returns. *)
Lemma decode_logs_item_Ok item tm allow ev :
  decode_logs_item item tm allow = Ok ev ->
  (known_topic item tm /\ decode_log item tm = Ok ev) \/
  (no_known_topic item tm /\ allow = true /\ placeholder_of item ev).
Proof.
  unfold decode_logs_item. intros H. bind_inv H as topics Ht.
  pose proof (undecodable_known_or_not item tm topics Ht) as Hkind.
  destruct (undecodable topics tm).
  - right. destruct allow; [|discriminate]. cbn [negb] in H.
    bind_inv H as data Hd. bind_inv H as address Ha.
    assert (Hev : ev = append_additional_log_data (l_extra item)
                         {| ev_name := None; ev_topics := Some topics;
                            ev_data := RawData data; ev_decoded := false;
                            ev_address := Some address; ev_extra := ∅ |}
                         ADD_LOG_ENTRIES) by congruence.
    subst ev. split; [exact Hkind|]. split; [reflexivity|].
    apply placeholder_of_built; assumption.
  - left. split; assumption.
Qed.

Lemma for_each_Forall2 {A B} (f : A -> result B) (l : list A) (ys : list B) :
  for_each f l = Ok ys -> Forall2 (fun x y => f x = Ok y) l ys.
Proof.
  revert ys. induction l as [|x l IH]; intros ys; cbn [for_each].
  - intros [= <-]. constructor.
  - destruct (f x) as [y|e] eqn:Hx; [|discriminate].
    destruct (for_each f l) as [ys'|e]; [|discriminate].
    intros [= <-]. constructor; [exact Hx|]. apply IH. reflexivity.
Qed.

(** The loop at a log in the middle of the list. *)
Lemma decode_logs_at before item after tm allow events :
  decode_logs before tm allow = Ok events ->
  decode_logs (before ++ item :: after) tm allow =
  let* ev := decode_logs_item item tm allow in
  let* more := decode_logs after tm allow in
  Ok (events ++ ev :: more).
Proof.
  rewrite !decode_logs_for_each. intros Hbefore.
  rewrite for_each_app, Hbefore. cbn [bind for_each].
  destruct (decode_logs_item item tm allow) as [ev|e]; [|reflexivity].
  destruct (for_each _ after) as [more|e]; reflexivity.
Qed.

(** C6: [decode_logs] handles the logs one by one, in order, and stops at
    the first exception.  The list it returns has one event for each log,
    in the order of the logs: for a log whose first topic is a key of the
    map, the event [decode_log] returns; for a log without topics, or
    whose first topic is not a key of the map, the placeholder (no name,
    not decoded, the topics and the data in hexadecimal, the checksummed
    address and the passthrough keys the log has), and only when
    [allow_undecoded] is true.  At each log in turn, once the logs before
    it gave their events: a log without a known topic raises
    [UnknownEvent] when [allow_undecoded] is false and contributes its
    placeholder when it is true; any other log contributes what
    [decode_log] returns, or raises what it raises. *)
Theorem C6_decode_logs_item_by_item
    (logs : list raw_log) (tm : gmap string schema) (allow : bool) :
  decode_logs logs tm allow = for_each (fun item => decode_logs_item item tm allow) logs /\
  (forall events, decode_logs logs tm allow = Ok events ->
     length events = length logs /\
     Forall2 (fun item ev =>
                (known_topic item tm /\ decode_log item tm = Ok ev) \/
                (no_known_topic item tm /\ allow = true /\ placeholder_of item ev))
             logs events) /\
  (forall before item after events topics,
     logs = before ++ item :: after ->
     decode_logs before tm allow = Ok events ->
     for_each _0xstring (l_topics item) = Ok topics ->
     (no_known_topic item tm -> allow = false ->
        decode_logs logs tm allow = Raise (UnknownEvent "Log contains undecodable event")) /\
     (no_known_topic item tm -> allow = true ->
        forall data address,
          _0xstring (l_data item) = Ok data ->
          to_checksum_address (l_address item) = Ok address ->
          exists ev,
            placeholder_of item ev /\
            ev_topics ev = Some topics /\ ev_data ev = RawData data /\
            ev_address ev = Some address /\
            decode_logs logs tm allow =
            let* more := decode_logs after tm allow in Ok (events ++ ev :: more)) /\
     (known_topic item tm ->
        decode_logs logs tm allow =
        let* ev := decode_log item tm in
        let* more := decode_logs after tm allow in
        Ok (events ++ ev :: more))).
Proof.
  split; [apply decode_logs_for_each|]. split.
  - intros events. rewrite decode_logs_for_each. intros H. split.
    + apply (for_each_length _ _ _ H).
    + apply for_each_Forall2 in H. eapply Forall2_impl; [exact H|].
      intros item ev. apply decode_logs_item_Ok.
  - intros before item after events topics -> Hbefore Htopics.
    rewrite (decode_logs_at before item after tm allow events Hbefore).
    unfold decode_logs_item. rewrite Htopics. cbn [bind]. split; [|split].
    + intros Hno ->. rewrite (undecodable_no_known_topic item tm topics Htopics Hno).
      reflexivity.
    + intros Hno -> data address Hd Ha.
      rewrite (undecodable_no_known_topic item tm topics Htopics Hno).
      rewrite Hd, Ha. cbn [negb bind].
      eexists. split; [apply placeholder_of_built; eassumption|].
      pose proof (append_additional_log_data_fields (l_extra item)
        {| ev_name := None; ev_topics := Some topics; ev_data := RawData data;
           ev_decoded := false; ev_address := Some address; ev_extra := ∅ |}
        ADD_LOG_ENTRIES) as (_ & Htop & Hdata & _ & Haddr).
      repeat (split; [assumption|]). reflexivity.
    + intros Hk. rewrite (undecodable_known_topic item tm topics Htopics Hk).
      reflexivity.
Qed.

(** *** The count of topics against the indexed inputs *)

Lemma unindexed_inputs_no_topics inputs indexed :
  select_indexed id inputs = Ok indexed -> indexed <> [] ->
  unindexed_inputs inputs [] = Ok inputs.
Proof.
  intros Hsel Hne. unfold unindexed_inputs. rewrite Hsel. cbn [bind].
  destruct indexed; [congruence|reflexivity].
Qed.

Lemma unindexed_inputs_too_many inputs topics indexed :
  select_indexed id inputs = Ok indexed -> (length indexed < length topics)%nat ->
  unindexed_inputs inputs topics = Raise (EventError too_many_topics_msg).
Proof.
  intros Hsel Hlt. unfold unindexed_inputs. rewrite Hsel. cbn [bind].
  replace (length topics =? 0)%nat with false by (symmetry; apply Nat.eqb_neq; lia).
  rewrite andb_false_r.
  replace (length indexed <? length topics)%nat with true
    by (symmetry; apply Nat.ltb_lt; lia).
  reflexivity.
Qed.

Lemma unindexed_inputs_too_few inputs topics indexed :
  select_indexed id inputs = Ok indexed ->
  (0 < length topics)%nat -> (length topics < length indexed)%nat ->
  unindexed_inputs inputs topics = Raise (EventError too_few_topics_msg).
Proof.
  intros Hsel Hpos Hlt. unfold unindexed_inputs. rewrite Hsel. cbn [bind].
  replace (length topics =? 0)%nat with false by (symmetry; apply Nat.eqb_neq; lia).
  rewrite andb_false_r.
  replace (length indexed <? length topics)%nat with false
    by (symmetry; apply Nat.ltb_ge; lia).
  replace (length topics <? length indexed)%nat with true
    by (symmetry; apply Nat.ltb_lt; lia).
  reflexivity.
Qed.

(** What [decode_log] does once the topic is found. *)
Lemma decode_log_found log tm topic0 topics key abi :
  l_topics log = topic0 :: topics -> _0xstring topic0 = Ok key -> tm !! key = Some abi ->
  decode_log log tm =
  except_KeyError_TypeError
    (let* data := _decode (s_inputs abi) topics (l_data log) in
     let* address := to_checksum_address (l_address log) in
     Ok (append_additional_log_data (l_extra log)
           {| ev_name := Some (s_name abi); ev_topics := None;
              ev_data := Fields data; ev_decoded := true;
              ev_address := Some address; ev_extra := ∅ |} ADD_LOG_ENTRIES))
    (EventError "Invalid event").
Proof. intros Ht Hk Hm. unfold decode_log. rewrite Ht, Hk. cbn [bind]. rewrite Hm. reflexivity. Qed.

(** C3: when the topics after the first are not as many as the indexed
    inputs, and they are not zero against at least one indexed input,
    [_decode] and [decode_log] raise [EventError], with the two messages
    exchanged.  With more topics than indexed inputs the message is the
    one that begins with a log that does not contain enough topics, about
    an argument that is not marked as indexed; with fewer topics it is
    the one that begins with a log that contains more topics than
    expected, about an argument that is incorrectly marked as indexed:
    each message is raised under the comparison opposite to the one its
    first clause names. *)
Theorem C3_topic_count_messages_are_exchanged
    (log : raw_log) (tm : gmap string schema) (topic0 : pyval) (topics : list pyval)
    (key : string) (abi : schema) (indexed : list param) :
  l_topics log = topic0 :: topics -> _0xstring topic0 = Ok key -> tm !! key = Some abi ->
  select_indexed id (s_inputs abi) = Ok indexed ->
  ((length indexed < length topics)%nat ->
     _decode (s_inputs abi) topics (l_data log) = Raise (EventError too_many_topics_msg) /\
     decode_log log tm = Raise (EventError too_many_topics_msg)) /\
  ((0 < length topics)%nat -> (length topics < length indexed)%nat ->
     _decode (s_inputs abi) topics (l_data log) = Raise (EventError too_few_topics_msg) /\
     decode_log log tm = Raise (EventError too_few_topics_msg)) /\
  mentions "does not contain enough topics" too_many_topics_msg = true /\
  mentions "argument is not marked as indexed" too_many_topics_msg = true /\
  mentions "incorrectly marked as indexed" too_many_topics_msg = false /\
  mentions "contains more topics than expected" too_few_topics_msg = true /\
  mentions "argument is incorrectly marked as indexed" too_few_topics_msg = true /\
  mentions "not marked as indexed" too_few_topics_msg = false.
Proof.
  intros Ht Hk Hm Hsel. rewrite (decode_log_found log tm topic0 topics key abi Ht Hk Hm).
  unfold _decode. split; [|split].
  - intros Hlt. rewrite (unindexed_inputs_too_many _ _ _ Hsel Hlt). split; reflexivity.
  - intros Hpos Hlt. rewrite (unindexed_inputs_too_few _ _ _ Hsel Hpos Hlt).
    split; reflexivity.
  - repeat split; vm_compute; reflexivity.
Qed.

(** *** Zero topics against indexed inputs *)

Lemma select_indexed_as_unindexed_id inputs :
  select_indexed id (as_unindexed <$> inputs) = Ok [].
Proof. induction inputs as [|i inputs IH]; cbn in *; [reflexivity|]. rewrite IH. reflexivity. Qed.

Lemma select_indexed_as_unindexed_negb inputs :
  select_indexed negb (as_unindexed <$> inputs) = Ok (as_unindexed <$> inputs).
Proof. induction inputs as [|i inputs IH]; cbn in *; [reflexivity|]. rewrite IH. reflexivity. Qed.

Lemma _params_as_unindexed inputs : _params (as_unindexed <$> inputs) = _params inputs.
Proof.
  unfold _params. induction inputs as [|i inputs IH]; [reflexivity|].
  rewrite fmap_cons. cbn [for_each]. cbn [for_each] in IH. rewrite IH.
  destruct i as [n t x c]. reflexivity.
Qed.

Lemma assemble_as_unindexed inputs decoded :
  assemble (as_unindexed <$> inputs) [] decoded = assemble inputs [] decoded.
Proof.
  revert decoded. induction inputs as [|i inputs IH]; intros decoded; [reflexivity|].
  rewrite fmap_cons. destruct i as [n t x c]. cbn [assemble as_unindexed p_name p_type p_components].
  destruct (getitem "name" n) as [name|e]; cbn [bind]; [|reflexivity].
  destruct (getitem "type" t) as [ty|e]; cbn [bind]; [|reflexivity].
  destruct (pop decoded) as [[value decoded']|]; [|reflexivity].
  destruct (render value) as [v|e]; cbn [bind]; [|reflexivity].
  rewrite IH. reflexivity.
Qed.

Lemma _params_types_present inputs types :
  _params inputs = Ok types -> Forall (fun i => is_Some (p_type i)) inputs.
Proof.
  unfold _params. revert types. induction inputs as [|i inputs IH]; intros types; [constructor|].
  cbn [for_each]. destruct (param_type i) as [ty|e] eqn:Hi; [|discriminate].
  destruct (for_each param_type inputs) as [tys|e]; [|discriminate]. intros _.
  constructor; [|eapply IH; reflexivity].
  destruct i as [n [t|] x c]; [eexists; reflexivity|discriminate].
Qed.

Lemma render_data_field i value : render value = Ok (f_value (data_field i value)).
Proof. destruct value; reflexivity. Qed.

(** Without topics every entry comes from the data, in the order of the inputs. *)
Lemma assemble_from_data inputs values :
  length values = length inputs ->
  Forall (fun i => is_Some (p_name i)) inputs ->
  Forall (fun i => is_Some (p_type i)) inputs ->
  assemble inputs [] (rev values) = Ok (zip_with data_field inputs values).
Proof.
  revert values. induction inputs as [|i inputs IH]; intros values Hlen Hn Ht.
  - destruct values; [reflexivity|discriminate].
  - destruct values as [|v values]; [discriminate|].
    inversion Hn as [|? ? [name Hname] Hn']; subst.
    inversion Ht as [|? ? [ty Hty] Ht']; subst.
    cbn [assemble]. rewrite Hname, Hty. cbn [getitem bind rev].
    rewrite pop_snoc, (render_data_field i v). cbn [bind].
    rewrite IH by (try assumption; cbn in Hlen; lia).
    cbn [bind zip_with]. unfold data_field. cbn [f_value]. rewrite Hname, Hty. reflexivity.
Qed.

(** C2: when a schema has indexed inputs and the log has no topic after
    the first, no count error is raised: the whole input list is taken as
    the unindexed one, and [_decode] gives what it gives on the same
    inputs with no [indexed] flag set.  Whenever the codec decodes the
    data for the canonical types of all the inputs, [_decode] and
    [decode_log] succeed, with one decoded entry per input, in the order
    of declaration, its value read from the data. *)
Theorem C2_no_topics_decodes_every_input_from_data
    (inputs indexed : list param) :
  select_indexed id inputs = Ok indexed -> indexed <> [] ->
  unindexed_inputs inputs [] = Ok inputs /\
  (forall data, _decode inputs [] data = _decode (as_unindexed <$> inputs) [] data) /\
  (forall data types buffer values,
     _params inputs = Ok types ->
     fill_empty_data types data = Ok buffer ->
     decode_data types buffer = Ok values ->
     length values = length inputs ->
     Forall (fun i => is_Some (p_name i)) inputs ->
     _decode inputs [] data = Ok (zip_with data_field inputs values) /\
     forall log tm topic0 key name address,
       l_topics log = [topic0] -> l_data log = data ->
       _0xstring topic0 = Ok key ->
       tm !! key = Some {| s_name := name; s_inputs := inputs |} ->
       to_checksum_address (l_address log) = Ok address ->
       decode_log log tm =
       Ok (append_additional_log_data (l_extra log)
             {| ev_name := Some name; ev_topics := None;
                ev_data := Fields (zip_with data_field inputs values);
                ev_decoded := true; ev_address := Some address; ev_extra := ∅ |}
             ADD_LOG_ENTRIES)).
Proof.
  intros Hsel Hne.
  pose proof (unindexed_inputs_no_topics inputs indexed Hsel Hne) as Hall.
  split; [exact Hall|]. split.
  - intros data. unfold _decode. rewrite Hall. cbn [bind].
    unfold unindexed_inputs. rewrite select_indexed_as_unindexed_id. cbn [bind length].
    cbn [Nat.eqb negb andb Nat.ltb Nat.leb]. rewrite select_indexed_as_unindexed_negb.
    cbn [bind]. rewrite _params_as_unindexed.
    destruct (except_KeyError_TypeError (_params inputs) _) as [types|e]; cbn [bind];
      [|reflexivity].
    destruct (fill_empty_data types data) as [buffer|e]; cbn [bind]; [|reflexivity].
    destruct (decode_data types buffer) as [values|e]; cbn [bind]; [|reflexivity].
    cbn [rev]. rewrite assemble_as_unindexed. reflexivity.
  - intros data types buffer values Htypes Hfill Hdec Hlen Hnames.
    assert (Hd : _decode inputs [] data = Ok (zip_with data_field inputs values)).
    { unfold _decode. rewrite Hall. cbn [bind]. rewrite Htypes.
      cbn [except_KeyError_TypeError bind]. rewrite Hfill. cbn [bind]. rewrite Hdec.
      cbn [bind rev]. apply assemble_from_data; [exact Hlen|exact Hnames|].
      eapply _params_types_present, Htypes. }
    split; [exact Hd|].
    intros log tm topic0 key name address Ht Hdata Hk Hm Ha.
    rewrite (decode_log_found log tm topic0 [] key _ Ht Hk Hm). cbn [s_inputs s_name].
    rewrite Hdata, Hd. cbn [bind]. rewrite Ha. reflexivity.
Qed.

End LogProperties.

(** ** The definitions at the sample inputs *)

(** With one type the buffer made for empty data is the single byte 0x20,
    the number 32 itself, under either convention of [HexBytes.hex()]. *)
Lemma fill_empty_data_one_type `{Ext : Externals} (ty : string) :
  hex_prefix = "0x" \/ hex_prefix = "" ->
  exists s, fill_empty_data [ty] (PStr "0x") = Ok (PStr s) /\ HexBytes (PStr s) = Ok [x20%byte].
Proof.
  intros Hp. unfold fill_empty_data, _0xstring, hexbytes_hex. cbn.
  eexists. split; [reflexivity|]. destruct Hp as [-> | ->]; reflexivity.
Qed.

(** C1: for a log with one unindexed [uint256] and the data ["0x"], the
    buffer handed to the codec is not 32 zero bytes: [_0xstring(length)]
    gives the hexadecimal form of the number 32, one byte.  The codec finds
    it too short and [decode_log] raises [EventError]; the value is not
    decoded as zero, although 32 zero bytes of data are.  For every count
    of types up to 64 the buffer made has at most two bytes. *)
Theorem C1_empty_data_is_filled_with_the_length_itself :
  fill_empty_data (Ext:=test_externals) ["uint256"] (PStr "0x") = Ok (PStr "0x20") /\
  HexBytes (PStr "0x20") = Ok [x20%byte] /\
  _decode (Ext:=test_externals) [uint256 "v" false] [] (PStr "0x")
    = Raise (EventError "Event data has insufficient length") /\
  decode_log (Ext:=test_externals) empty_data_log sample_map
    = Raise (EventError "Event data has insufficient length") /\
  (exists ev, decode_log (Ext:=test_externals) zero_data_log sample_map = Ok ev /\
     ev_data ev = Fields [data_field (Ext:=test_externals) (uint256 "v" false) (PInt 0)]) /\
  forallb
    (fun count =>
       match (let* data := fill_empty_data (Ext:=test_externals)
                             (repeat "uint256" count) (PStr "0x") in
              HexBytes data) with
       | Ok buffer => (length buffer <=? 2)%nat
       | Raise _ => false
       end)
    (seq 1 64) = true.
Proof.
  split; [reflexivity|]. split; [reflexivity|]. split; [reflexivity|].
  split; [reflexivity|]. split.
  - eexists. split; vm_compute; reflexivity.
  - vm_compute. reflexivity.
Qed.

(** C4: a LOG2 whose stack holds the offset, the length and one topic
    raises nothing: the slice of the stack is cut short, and an event with
    one topic is returned.  Only a missing stack, or one with fewer than
    the two words of offset and length, raises [StructLogError]. *)
Theorem C4_short_stack_gives_fewer_topics :
  log_operands (Ext:=test_externals) short_stack_step = Ok (0, 0, ["0x07"]) /\
  decode_traceTransaction (Ext:=test_externals) [push_step; short_stack_step] ∅ true None
    = Ok [{| ev_name := None; ev_topics := Some ["0x07"]; ev_data := RawData "0x";
             ev_decoded := false; ev_address := None; ev_extra := ∅ |}] /\
  (forall op depth memory,
     log_operands (Ext:=test_externals)
       {| sl_op := op; sl_depth := depth; sl_stack := None; sl_memory := memory |}
     = Raise (StructLogError "StructLog has no stack")) /\
  (forall op depth memory,
     log_operands (Ext:=test_externals)
       {| sl_op := op; sl_depth := depth; sl_stack := Some []; sl_memory := memory |}
     = Raise (StructLogError "Malformed stack")).
Proof. repeat split; reflexivity. Qed.

Lemma C3_witness :
  decode_log (Ext:=test_externals) one_topic_log sample_map
    = Raise (EventError too_few_topics_msg) /\
  decode_log (Ext:=test_externals) three_topic_log sample_map
    = Raise (EventError too_many_topics_msg).
Proof.
  assert (Hpair : select_indexed id [uint256 "a" true; uint256 "b" true]
                  = Ok [uint256 "a" true; uint256 "b" true]) by reflexivity.
  split.
  - destruct (C3_topic_count_messages_are_exchanged (Ext:=test_externals)
                one_topic_log sample_map (PStr "0x02") [PBytes (word x05%byte)] "0x02"
                {| s_name := "Pair"; s_inputs := [uint256 "a" true; uint256 "b" true] |}
                [uint256 "a" true; uint256 "b" true]
                eq_refl eq_refl eq_refl Hpair) as (_ & Hfew & _).
    apply (Hfew (le_n 1) (le_n 2)).
  - destruct (C3_topic_count_messages_are_exchanged (Ext:=test_externals)
                three_topic_log sample_map (PStr "0x02")
                [PBytes (word x05%byte); PBytes (word x06%byte); PBytes (word x07%byte)]
                "0x02"
                {| s_name := "Pair"; s_inputs := [uint256 "a" true; uint256 "b" true] |}
                [uint256 "a" true; uint256 "b" true]
                eq_refl eq_refl eq_refl Hpair) as (Hmany & _).
    apply (Hmany (le_n 3)).
Defined.

Lemma C2_witness :
  exists ev, decode_log (Ext:=test_externals) no_topics_log sample_map = Ok ev /\
    ev_data ev = Fields [data_field (Ext:=test_externals) (uint256 "a" true) (PInt 5);
                         data_field (Ext:=test_externals) (uint256 "b" false) (PInt 9)].
Proof.
  destruct (C2_no_topics_decodes_every_input_from_data (Ext:=test_externals)
              [uint256 "a" true; uint256 "b" false] [uint256 "a" true]
              eq_refl ltac:(discriminate)) as (_ & _ & Hdata).
  destruct (Hdata (l_data no_topics_log) ["uint256"; "uint256"] (l_data no_topics_log)
              [PInt 5; PInt 9] eq_refl eq_refl eq_refl eq_refl) as [_ Hlog].
  { repeat constructor; eexists; reflexivity. }
  eexists. split.
  - apply (Hlog no_topics_log sample_map (PStr "0x03") "0x03" "Mixed" "0xaa");
      reflexivity.
  - reflexivity.
Defined.

Lemma C6_witness :
  exists placeholder decoded,
    decode_logs (Ext:=test_externals) [unknown_log; zero_data_log] sample_map true
      = Ok [placeholder; decoded] /\
    placeholder_of (Ext:=test_externals) unknown_log placeholder /\
    ev_topics placeholder = Some ["0x7f"] /\ ev_data placeholder = RawData "0x1234" /\
    ev_address placeholder = Some "0xaa" /\
    decode_log (Ext:=test_externals) zero_data_log sample_map = Ok decoded /\
    ev_name decoded = Some "Value" /\
    decode_logs (Ext:=test_externals) [unknown_log; zero_data_log] sample_map false
      = Raise (UnknownEvent "Log contains undecodable event").
Proof.
  assert (Hunknown : no_known_topic (Ext:=test_externals) unknown_log sample_map).
  { right. exists (PStr "0x7f"), [], "0x7f". repeat split; reflexivity. }
  assert (Hknown : known_topic (Ext:=test_externals) zero_data_log sample_map).
  { exists (PStr "0x01"), [], "0x01",
      {| s_name := "Value"; s_inputs := [uint256 "v" false] |}.
    repeat split; reflexivity. }
  destruct (C6_decode_logs_item_by_item (Ext:=test_externals)
              [unknown_log; zero_data_log] sample_map true) as (_ & _ & Hturn).
  destruct (Hturn [] unknown_log [zero_data_log] [] ["0x7f"] eq_refl eq_refl eq_refl)
    as (_ & Hplace & _).
  destruct (Hplace Hunknown eq_refl "0x1234" "0xaa" eq_refl eq_refl)
    as (placeholder & Hp & Ht & Hd & Ha & Hlogs).
  destruct (decode_log (Ext:=test_externals) zero_data_log sample_map) as [decoded|e] eqn:Hlog;
    [|vm_compute in Hlog; discriminate].
  exists placeholder, decoded.
  destruct (C6_decode_logs_item_by_item (Ext:=test_externals)
              [zero_data_log] sample_map true) as (_ & _ & Hlast).
  destruct (Hlast [] zero_data_log [] [] ["0x01"] eq_refl eq_refl eq_refl)
    as (_ & _ & Hdecoded).
  split.
  - rewrite Hlogs, (Hdecoded Hknown), Hlog. reflexivity.
  - repeat (split; [assumption|]). split; [reflexivity|]. split.
    + vm_compute in Hlog. injection Hlog as <-. reflexivity.
    + destruct (C6_decode_logs_item_by_item (Ext:=test_externals)
                  [unknown_log; zero_data_log] sample_map false) as (_ & _ & Hfail).
      destruct (Hfail [] unknown_log [zero_data_log] [] ["0x7f"] eq_refl eq_refl eq_refl)
        as (Hraise & _).
      apply (Hraise Hunknown eq_refl).
Defined.

Lemma C7_witness :
  exists events,
    decode_traceTransaction (Ext:=test_externals) [push_step; value_step] sample_map true None
      = Ok events /\ length events = 1%nat /\
    Forall (fun ev => ev_address ev = None) events.
Proof.
  eexists. split; [vm_compute; reflexivity|]. split; [reflexivity|].
  apply (proj1 (proj2 (C7_no_address_derivation_without_initial_address
                         (Ext:=test_externals) [push_step; value_step] sample_map true))).
  vm_compute. reflexivity.
Defined.

Lemma C8_witness :
  get_log_topic (Ext:=test_externals) pair_abi = get_log_topic (Ext:=test_externals) pair_abi' /\
  _params nested_params = Ok ["(uint256,(uint256,uint256))[2]"; "uint256"] /\
  get_log_topic (Ext:=test_externals) matrix_abi = Ok "0x45282875696e74323536295b325d29" /\
  get_log_topic (Ext:=test_externals) row_abi = Ok "0x45282875696e74323536295b325d29".
Proof.
  destruct (C8_tuple_type_loses_the_dimensions_after_the_first (Ext:=test_externals))
    as (_ & _ & _ & _ & Htopic & Hsame' & Hsame & Hcanon).
  split; [|split; [|split]].
  - apply (Hsame pair_abi pair_abi' "Pair" [uint256 "a" true; uint256 "b" true]
             [Param None (Some "uint256") None None; uint256 "y" false]
             ["uint256"; "uint256"]); reflexivity.
  - rewrite Hcanon; [reflexivity|].
    assert (Hplain : forall n x c, well_formed (Param n (Some "uint256") x c))
      by (intros; apply wf_plain; reflexivity).
    constructor; [|constructor; [apply Hplain|constructor]].
    apply (wf_tuple _ "[2]").
    { right. exists "2". split; reflexivity. }
    constructor; [apply Hplain|]. constructor; [|constructor].
    apply (wf_tuple _ ""); [left; reflexivity|].
    constructor; [apply Hplain|]. constructor; [apply Hplain|constructor].
  - rewrite Htopic. reflexivity.
  - rewrite <- Hsame', Htopic. reflexivity.
Defined.

Lemma C9_witness :
  decode_traceTransaction (Ext:=test_externals) [] sample_map false (Some (PStr "0xaa"))
    = Raise IndexError.
Proof.
  apply (proj2 (proj2 (C9_empty_trace_raises_IndexError (Ext:=test_externals)
                         sample_map false (Some (PStr "0xaa")))) (PStr "0xaa") "0xaa").
  reflexivity.
Defined.

Lemma C10_witness :
  decode_traceTransaction (Ext:=test_externals) [value_step] sample_map false
    (Some (PStr "0xaa")) = Ok [] /\
  exists events,
    decode_traceTransaction (Ext:=test_externals) [value_step; value_step] sample_map false None
      = Ok events /\ length events = 1%nat.
Proof.
  destruct (C10_first_step_emits_no_event (Ext:=test_externals) sample_map false)
    as (_ & Hone & Hcount & _).
  split.
  - apply (Hone value_step (PStr "0xaa") "0xaa"). reflexivity.
  - eexists. split; [vm_compute; reflexivity|].
    apply (Hcount value_step [value_step] None). vm_compute. reflexivity.
Defined.

(** * Further properties *)

(** ** Hexadecimal strings *)

Lemma unhexlify_hexlify_byte (x : byte) (r : string) :
  unhexlify (String (hex_digit (Byte.to_N x / 16))
               (String (hex_digit (Byte.to_N x mod 16)) r))
  = match unhexlify r with
    | Some cs => Some (x :: cs)
    | None => None
    end.
Proof. destruct x; cbn; destruct (unhexlify r); reflexivity. Qed.

Lemma unhexlify_hexlify (b : list byte) : unhexlify (hexlify b) = Some b.
Proof.
  induction b as [|x b IH]; [reflexivity|].
  cbn [hexlify]. rewrite unhexlify_hexlify_byte, IH. reflexivity.
Qed.

Lemma hexlify_length (b : list byte) : String.length (hexlify b) = (2 * length b)%nat.
Proof. induction b as [|x b IH]; [reflexivity|]. cbn [hexlify String.length length]. lia. Qed.

Lemma hexlify_no_prefix (b : list byte) : strip_0x (hexlify b) = hexlify b.
Proof.
  destruct b as [|x b]; [reflexivity|].
  unfold strip_0x. cbn [hexlify].
  replace (String.prefix "0x" _ || String.prefix "0X" _) with false; [reflexivity|].
  destruct x; reflexivity.
Qed.

Lemma hexstr_to_bytes_hexlify (b : list byte) :
  hexstr_to_bytes (hexlify b) = Ok b /\ hexstr_to_bytes ("0x" ++ hexlify b)%string = Ok b.
Proof.
  assert (Heven : forall n, Nat.odd (2 * n) = false).
  { intros n. rewrite Nat.odd_even. reflexivity. }
  unfold hexstr_to_bytes. split.
  - rewrite hexlify_no_prefix, hexlify_length, Heven, unhexlify_hexlify. reflexivity.
  - change ("0x" ++ hexlify b)%string with (String "0" (String "x" (hexlify b))).
    unfold strip_0x. cbn [String.prefix String.length].
    replace (String.prefix "" (hexlify b)) with true by (destruct (hexlify b); reflexivity).
    cbn. rewrite Nat.sub_0_r, substring_all, hexlify_length.
    replace (S (S (2 * length b))) with (2 * S (length b))%nat by lia.
    rewrite Heven.
    rewrite unhexlify_hexlify. reflexivity.
Qed.

Section HexProperties.
Context `{Ext : Externals}.

Lemma HexBytes_hexbytes_hex (b : list byte) :
  hex_prefix = "0x" \/ hex_prefix = "" -> HexBytes (PStr (hexbytes_hex b)) = Ok b.
Proof.
  intros Hp. unfold hexbytes_hex. cbn [HexBytes].
  destruct Hp as [-> | ->]; apply hexstr_to_bytes_hexlify.
Qed.

Lemma _0xstring_again (value : pyval) (s : string) :
  hex_prefix = "0x" \/ hex_prefix = "" ->
  _0xstring value = Ok s -> _0xstring (PStr s) = Ok s.
Proof.
  intros Hp. unfold _0xstring. intros H. bind_inv H as b Hv. injection H as <-.
  rewrite (HexBytes_hexbytes_hex b Hp). reflexivity.
Qed.

(** X1: the hexadecimal form of [_0xstring] reads back as the same bytes,
    so [_0xstring] applied to its own result changes nothing. *)
Theorem X1_0xstring_reads_its_own_result :
  hex_prefix = "0x" \/ hex_prefix = "" ->
  (forall b, HexBytes (PStr (hexbytes_hex b)) = Ok b) /\
  (forall value s, _0xstring value = Ok s -> _0xstring (PStr s) = Ok s).
Proof.
  intros Hp. split.
  - intros b. apply HexBytes_hexbytes_hex, Hp.
  - intros value s. apply _0xstring_again, Hp.
Qed.

End HexProperties.

(** ** Type signatures, again *)

Lemma for_each_outcome {A B} (f : A -> result B) (P : exn -> Prop) (l : list A) :
  Forall (fun x => forall e, f x = Raise e -> P e) l ->
  forall e, for_each f l = Raise e -> P e.
Proof.
  induction 1 as [|x l Hx _ IH]; intros e; cbn; [discriminate|].
  destruct (f x) as [y|e'] eqn:Hf.
  - cbn in IH. destruct (for_each f l) as [ys|e'']; [discriminate|].
    intros [= <-]. apply IH. reflexivity.
  - intros [= <-]. apply Hx. reflexivity.
Qed.

Lemma param_type_raises (i : param) (e : exn) :
  param_type i = Raise e -> e = KeyError "type" \/ e = KeyError "components".
Proof.
  revert e. induction i as [n t x|n t x cs IH] using param_nested_ind; intros e;
    rewrite param_type_eq; destruct t as [ty|]; try (intros [= <-]; auto; fail);
    destruct (tuple_match ty) as [group|]; try discriminate.
  - intros [= <-]. auto.
  - unfold _params.
    destruct (for_each param_type cs) as [inner|e'] eqn:Hcs; cbn [bind]; [discriminate|].
    intros [= <-].
    apply (for_each_outcome param_type
             (fun e => e = KeyError "type" \/ e = KeyError "components") cs); [|exact Hcs].
    exact IH.
Qed.

Lemma _params_raises (abi_params : list param) (e : exn) :
  _params abi_params = Raise e -> e = KeyError "type" \/ e = KeyError "components".
Proof.
  apply (for_each_outcome param_type
           (fun e => e = KeyError "type" \/ e = KeyError "components") abi_params).
  apply Forall_forall. intros i _ e'. apply param_type_raises.
Qed.

(** X2: [_params] gives one type per parameter, or raises [KeyError] for a
    missing [type] or [components]; it raises nothing else. *)
Theorem X2_params_one_type_each_or_KeyError (abi_params : list param) :
  (exists types, _params abi_params = Ok types /\ length types = length abi_params) \/
  _params abi_params = Raise (KeyError "type") \/
  _params abi_params = Raise (KeyError "components").
Proof.
  destruct (_params abi_params) as [types|e] eqn:H.
  - left. exists types. split; [reflexivity|]. eapply for_each_length, H.
  - right. destruct (_params_raises abi_params e H) as [-> | ->]; auto.
Qed.

Lemma span_digits_then_bracket (size rest : string) :
  forallb is_digit (list_ascii_of_string size) = true ->
  span_digits (size ++ String "]" rest)%string = (size, String "]" rest).
Proof.
  induction size as [|c size IH]; [reflexivity|].
  cbn [list_ascii_of_string forallb]. intros [Hc Hs]%andb_true_iff.
  change (String c size ++ String "]" rest)%string with (String c (size ++ String "]" rest)).
  cbn [span_digits]. rewrite Hc, (IH Hs). reflexivity.
Qed.

(** X3: of what follows the word [tuple], only the first bracket group
    reaches the canonical type; a second dimension, or anything else after
    the closing bracket, is dropped. *)
Theorem X3_tuple_type_keeps_the_first_bracket_group
    (n : option string) (size rest : string) (x : option bool)
    (cs : list param) (inner : list string) :
  forallb is_digit (list_ascii_of_string size) = true ->
  _params cs = Ok inner ->
  _params [Param n (Some ("tuple[" ++ size ++ String "]" rest)%string) x (Some cs)]
  = Ok [("(" ++ String.concat "," inner ++ ")" ++ "[" ++ size ++ "]")%string].
Proof.
  intros Hd Hcs. unfold _params. cbn [for_each]. rewrite param_type_eq.
  assert (Hm : tuple_match ("tuple[" ++ size ++ String "]" rest) = Some (Some size)).
  { unfold tuple_match.
    change ("tuple[" ++ size ++ String "]" rest)%string
      with ("tuple" ++ String "[" (size ++ String "]" rest))%string.
    rewrite after_tuple. cbv beta iota.
    rewrite (span_digits_then_bracket size rest Hd). reflexivity. }
  rewrite Hm, Hcs. reflexivity.
Qed.

(** ** The topic map *)

Section TopicMapProperties.
Context `{Ext : Externals}.

Lemma select_events_filter abi :
  select_events abi = Raise (KeyError "type") \/
  select_events abi = Ok (List.filter is_named_event abi).
Proof.
  induction abi as [|i abi IH]; [right; reflexivity|].
  cbn [select_events List.filter]. unfold is_named_event at 1.
  destruct (e_type i) as [ty|]; cbn [getitem bind]; [|left; reflexivity].
  destruct IH as [-> | ->]; [left; reflexivity|right]. cbn [bind]. unfold truthy.
  destruct (_ && _); reflexivity.
Qed.

Lemma is_named_event_spec e :
  is_named_event e = true <-> e_type e = Some "event" /\ truthy (e_anonymous e) = false.
Proof.
  unfold is_named_event, truthy. destruct (e_type e) as [ty|].
  - rewrite andb_true_iff, negb_true_iff. split.
    + intros [Hty Ha]. apply String.eqb_eq in Hty. subst. auto.
    + intros [[= ->] Ha]. split; [apply String.eqb_refl|exact Ha].
  - split; [discriminate|]. intros [[=] _].
Qed.

Lemma get_log_topic_named e :
  truthy (e_anonymous e) = false ->
  (exists topic name inputs types,
     get_log_topic e = Ok topic /\ e_name e = Some name /\ e_inputs e = Some inputs /\
     _params inputs = Ok types) \/
  (exists key, get_log_topic e = Raise (KeyError key)).
Proof.
  intros Ha. unfold get_log_topic. rewrite Ha.
  destruct (e_inputs e) as [inputs|]; cbn [getitem bind]; [|right; eexists; reflexivity].
  destruct (_params inputs) as [types|e'] eqn:Hty; cbn [bind].
  - destruct (e_name e) as [name|]; cbn [getitem bind]; [|right; eexists; reflexivity].
    left. eexists _, name, inputs, types. split; [reflexivity|]. auto.
  - right. destruct (_params_raises inputs e' Hty) as [-> | ->]; eexists; reflexivity.
Qed.

Lemma topic_dict_outcome events acc :
  Forall (fun e => is_named_event e = true) events ->
  (exists m, topic_dict events acc = Ok m) \/
  (exists key, topic_dict events acc = Raise (KeyError key)).
Proof.
  intros H. revert acc. induction H as [|e events He _ IH]; intros acc;
    [left; eexists; reflexivity|].
  cbn [topic_dict]. apply is_named_event_spec in He as [_ Ha].
  destruct (get_log_topic_named e Ha)
    as [(topic & name & inputs & types & -> & -> & -> & _)|(key & ->)];
    cbn [getitem bind]; [apply IH|right; eexists; reflexivity].
Qed.

(** X4: whatever the ABI holds, [get_topic_map] returns a map or raises
    [ABIError] with the message [Invalid ABI]; no [KeyError] of a missing
    key gets out of it. *)
Theorem X4_get_topic_map_raises_only_ABIError (abi : list abi_entry) :
  (exists m, get_topic_map abi = Ok m) \/
  get_topic_map abi = Raise (ABIError "Invalid ABI").
Proof.
  unfold get_topic_map.
  destruct (select_events_filter abi) as [-> | ->]; [right; reflexivity|]. cbn [bind].
  destruct (topic_dict_outcome (List.filter is_named_event abi) ∅) as [(m & ->)|(key & ->)].
  - apply List.Forall_forall. intros e He. apply List.filter_In in He. tauto.
  - left. eexists. reflexivity.
  - right. reflexivity.
Qed.

(** What one step of the dictionary comprehension stores. *)
Lemma topic_dict_cons e events acc m :
  topic_dict (e :: events) acc = Ok m ->
  exists topic name inputs,
    get_log_topic e = Ok topic /\ e_name e = Some name /\ e_inputs e = Some inputs /\
    topic_dict events (<[topic := {| s_name := name; s_inputs := inputs |}]> acc) = Ok m.
Proof.
  cbn [topic_dict]. intros H. bind_inv H as topic Ht. bind_inv H as name Hn.
  bind_inv H as inputs Hi. exists topic, name, inputs.
  destruct (e_name e); [|discriminate]. destruct (e_inputs e); [|discriminate].
  cbn in Hn, Hi. injection Hn as ->. injection Hi as ->. auto.
Qed.

Lemma topic_dict_lookup events acc m topic s :
  topic_dict events acc = Ok m -> m !! topic = Some s ->
  acc !! topic = Some s \/
  exists e, In e events /\ get_log_topic e = Ok topic /\
    e_name e = Some (s_name s) /\ e_inputs e = Some (s_inputs s).
Proof.
  revert acc. induction events as [|e events IH]; intros acc H Hm.
  - injection H as <-. left. exact Hm.
  - apply topic_dict_cons in H as (topic' & name & inputs & Ht & Hn & Hi & H).
    destruct (IH _ H Hm) as [Hacc|(e' & Hin & He')].
    + destruct (decide (topic' = topic)) as [->|Hne].
      * rewrite lookup_insert_eq in Hacc. injection Hacc as <-.
        right. exists e. split; [left; reflexivity|]. auto.
      * rewrite lookup_insert_ne in Hacc by exact Hne. left. exact Hacc.
    + right. exists e'. split; [right; exact Hin|exact He'].
Qed.

Lemma topic_dict_keeps_keys events acc m topic :
  topic_dict events acc = Ok m -> is_Some (acc !! topic) -> is_Some (m !! topic).
Proof.
  revert acc. induction events as [|e events IH]; intros acc H Hacc.
  - injection H as <-. exact Hacc.
  - apply topic_dict_cons in H as (topic' & name & inputs & _ & _ & _ & H).
    apply (IH _ H). destruct (decide (topic' = topic)) as [->|Hne].
    + rewrite lookup_insert_eq. eexists. reflexivity.
    + rewrite lookup_insert_ne by exact Hne. exact Hacc.
Qed.

Lemma topic_dict_has_topic events acc m e :
  topic_dict events acc = Ok m -> In e events ->
  exists topic, get_log_topic e = Ok topic /\ is_Some (m !! topic).
Proof.
  revert acc. induction events as [|e' events IH]; intros acc H Hin; [destruct Hin|].
  apply topic_dict_cons in H as (topic & name & inputs & Ht & _ & _ & H).
  destruct Hin as [->|Hin]; [|apply (IH _ H Hin)].
  exists topic. split; [exact Ht|]. apply (topic_dict_keeps_keys _ _ _ _ H).
  rewrite lookup_insert_eq. eexists. reflexivity.
Qed.

(** A key that no later event has keeps its value. *)
Lemma topic_dict_untouched events acc m topic :
  topic_dict events acc = Ok m ->
  Forall (fun e => get_log_topic e <> Ok topic) events ->
  m !! topic = acc !! topic.
Proof.
  revert acc. induction events as [|e events IH]; intros acc H Hno.
  - injection H as <-. reflexivity.
  - apply topic_dict_cons in H as (topic' & name & inputs & Ht & _ & _ & H).
    inversion Hno as [|? ? He Hno']; subst.
    rewrite (IH _ H Hno'). apply lookup_insert_ne. intros ->. apply He, Ht.
Qed.

Lemma topic_dict_app events1 events2 acc :
  topic_dict (events1 ++ events2) acc =
  let* m := topic_dict events1 acc in topic_dict events2 m.
Proof.
  revert acc. induction events1 as [|e events1 IH]; intros acc; [reflexivity|].
  cbn [app topic_dict].
  destruct (get_log_topic e) as [topic|]; cbn [bind]; [|reflexivity].
  destruct (getitem "name" (e_name e)) as [name|]; cbn [bind]; [|reflexivity].
  destruct (getitem "inputs" (e_inputs e)) as [inputs|]; cbn [bind]; [|reflexivity].
  apply IH.
Qed.

Lemma get_topic_map_Ok abi m :
  get_topic_map abi = Ok m -> topic_dict (List.filter is_named_event abi) ∅ = Ok m.
Proof.
  unfold get_topic_map.
  destruct (select_events_filter abi) as [-> | ->]; [discriminate|]. cbn [bind].
  destruct (topic_dict _ ∅) as [m'|[]]; cbn; congruence.
Qed.

(** X5: the map [get_topic_map] returns holds the topic of every event
    of the ABI that is not anonymous, and nothing else: each of its values
    is the name and the inputs of such an event, under that event's topic.
    Entries of other types and anonymous events leave no trace. *)
Theorem X5_get_topic_map_holds_the_named_events
    (abi : list abi_entry) (m : gmap string schema) :
  get_topic_map abi = Ok m ->
  (forall e, In e abi -> e_type e = Some "event" -> truthy (e_anonymous e) = false ->
     exists topic, get_log_topic e = Ok topic /\ is_Some (m !! topic)) /\
  (forall topic s, m !! topic = Some s ->
     exists e, In e abi /\ e_type e = Some "event" /\ truthy (e_anonymous e) = false /\
       get_log_topic e = Ok topic /\
       e_name e = Some (s_name s) /\ e_inputs e = Some (s_inputs s)).
Proof.
  intros H%get_topic_map_Ok. split.
  - intros e Hin Hty Ha. apply (topic_dict_has_topic _ _ _ _ H).
    apply List.filter_In. split; [exact Hin|]. apply is_named_event_spec. auto.
  - intros topic s Hm.
    destruct (topic_dict_lookup _ _ _ _ _ H Hm) as [Hempty|(e & Hin & Ht & Hn & Hi)].
    + rewrite lookup_empty in Hempty. discriminate.
    + apply List.filter_In in Hin as [Hin Hev]. apply is_named_event_spec in Hev as [Hty Ha].
      exists e. auto 10.
Qed.

(** X6: when two events of an ABI have the same topic, the later one is
    the one the map keeps: an event is stored under its topic with its own
    name and inputs as soon as no named event after it has that topic. *)
Theorem X6_the_last_event_of_a_topic_wins
    (before after : list abi_entry) (e : abi_entry) (m : gmap string schema)
    (topic : string) :
  get_topic_map (before ++ e :: after) = Ok m ->
  e_type e = Some "event" -> truthy (e_anonymous e) = false ->
  get_log_topic e = Ok topic ->
  Forall (fun e' => is_named_event e' = true -> get_log_topic e' <> Ok topic) after ->
  exists name inputs,
    e_name e = Some name /\ e_inputs e = Some inputs /\
    m !! topic = Some {| s_name := name; s_inputs := inputs |}.
Proof.
  intros H%get_topic_map_Ok Hty Ha Ht Hafter.
  rewrite List.filter_app in H. cbn [List.filter] in H.
  replace (is_named_event e) with true in H
    by (symmetry; apply is_named_event_spec; auto).
  rewrite topic_dict_app in H. bind_inv H as m1 H1.
  apply topic_dict_cons in H as (topic' & name & inputs & Ht' & Hn & Hi & H).
  rewrite Ht in Ht'. injection Ht' as <-.
  exists name, inputs. split; [exact Hn|]. split; [exact Hi|].
  rewrite (topic_dict_untouched _ _ _ topic H).
  - apply lookup_insert_eq.
  - apply List.Forall_forall. intros e' Hin. apply List.filter_In in Hin as [Hin Hev].
    rewrite List.Forall_forall in Hafter. apply (Hafter e' Hin Hev).
Qed.

End TopicMapProperties.

(** ** The entries of a decoded event *)

Section FieldProperties.
Context `{Ext : Externals}.

Lemma assemble_cons i rest topics decoded :
  assemble (i :: rest) topics decoded =
  let* name := getitem "name" (p_name i) in
  let* ty := getitem "type" (p_type i) in
  let entry v d :=
    {| f_name := name; f_type := ty; f_components := p_components i;
       f_value := v; f_decoded := d |} in
  let* from_topic :=
    match topics with
    | [] => Ok false
    | _ => getitem "indexed" (p_indexed i)
    end in
  if (from_topic : bool) then
    match pop topics with
    | None => Raise IndexError
    | Some (topic, topics) =>
        let* encoded := HexBytes topic in
        match eth_abi_decode [ty] encoded with
        | Raise InsufficientDataBytes | Raise NoEntriesFound | Raise OverflowError =>
            let* raw := _0xstring (PBytes encoded) in
            let* result := assemble rest topics decoded in
            Ok (entry (PStr raw) false :: result)
        | Raise e => Raise e
        | Ok [] => Raise IndexError
        | Ok (value :: _) =>
            let* value := render value in
            let* result := assemble rest topics decoded in
            Ok (entry value true :: result)
        end
    end
  else
    match pop decoded with
    | None => Raise IndexError
    | Some (value, decoded) =>
        let* value := render value in
        let* result := assemble rest topics decoded in
        Ok (entry value true :: result)
    end.
Proof. reflexivity. Qed.

Lemma render_no_bytes value v : render value = Ok v -> forall b, v <> PBytes b.
Proof.
  destruct value; cbn; intros [= <-]; discriminate.
Qed.

Lemma assemble_entries inputs topics decoded fields :
  assemble inputs topics decoded = Ok fields -> Forall2 entry_of inputs fields.
Proof.
  revert topics decoded fields.
  induction inputs as [|i rest IH]; intros topics decoded fields.
  - intros [= <-]. constructor.
  - rewrite assemble_cons. intros H.
    bind_inv H as name Hname. bind_inv H as ty Hty. cbv zeta in H.
    bind_inv H as from_topic Hfrom.
    assert (Hn : p_name i = Some name) by (destruct (p_name i); cbn in Hname; congruence).
    assert (Ht : p_type i = Some ty) by (destruct (p_type i); cbn in Hty; congruence).
    destruct from_topic.
    + assert (Hi : p_indexed i = Some true).
      { destruct topics; [discriminate|].
        destruct (p_indexed i); cbn in Hfrom; congruence. }
      destruct (pop topics) as [[topic topics']|]; [|discriminate].
      bind_inv H as encoded Henc.
      destruct (eth_abi_decode [ty] encoded) as [[|value more]|e]; [discriminate| |].
      * bind_inv H as v Hv. bind_inv H as result Hres. injection H as <-.
        constructor; [|eapply IH, Hres].
        unfold entry_of. cbn. split; [exact Hn|]. split; [exact Ht|]. split; [reflexivity|].
        split; [eapply render_no_bytes, Hv|discriminate].
      * assert (Hraw : (let* raw := _0xstring (PBytes encoded) in
                        let* result := assemble rest topics' decoded in
                        Ok ({| f_name := name; f_type := ty; f_components := p_components i;
                               f_value := PStr raw; f_decoded := false |} :: result))
                       = Ok fields) by (destruct e; try discriminate; exact H).
        clear H. bind_inv Hraw as raw Hr. bind_inv Hraw as result Hres. injection Hraw as <-.
        constructor; [|eapply IH, Hres].
        unfold entry_of. cbn. split; [exact Hn|]. split; [exact Ht|]. split; [reflexivity|].
        split; [discriminate|]. intros _. split; [exact Hi|]. eexists. reflexivity.
    + destruct (pop decoded) as [[value decoded']|]; [|discriminate].
      bind_inv H as v Hv. bind_inv H as result Hres. injection H as <-.
      constructor; [|eapply IH, Hres].
      unfold entry_of. cbn. split; [exact Hn|]. split; [exact Ht|]. split; [reflexivity|].
      split; [eapply render_no_bytes, Hv|discriminate].
Qed.

(** X7: when [_decode] returns, its result has one entry per input, in
    the order of the inputs, with the name, the type and the components of
    its input.  No value is of type [bytes]: these are turned into
    hexadecimal strings.  An entry marked as not decoded belongs to an
    indexed input and holds a hexadecimal string. *)
Theorem X7_decode_gives_one_entry_per_input
    (inputs : list param) (topics : list pyval) (data : pyval) (fields : list field) :
  _decode inputs topics data = Ok fields ->
  length fields = length inputs /\ Forall2 entry_of inputs fields.
Proof.
  unfold _decode. intros H. bind_inv H as unindexed Hu. bind_inv H as types Ht.
  bind_inv H as buffer Hb. bind_inv H as decoded Hd.
  apply assemble_entries in H. split; [|exact H].
  symmetry. eapply Forall2_length, H.
Qed.

Lemma select_indexed_cons keep i rest sel :
  select_indexed keep (i :: rest) = Ok sel ->
  exists b sel', p_indexed i = Some b /\ select_indexed keep rest = Ok sel' /\
    sel = if keep b then i :: sel' else sel'.
Proof.
  cbn [select_indexed]. intros H. bind_inv H as b Hb. bind_inv H as sel' Hs.
  injection H as <-. exists b, sel'.
  destruct (p_indexed i); cbn in Hb; [|discriminate]. injection Hb as ->. auto.
Qed.

Lemma assemble_merge inputs indexed unindexed topics outs values :
  Forall (fun i => is_Some (p_name i)) inputs ->
  select_indexed id inputs = Ok indexed ->
  select_indexed negb inputs = Ok unindexed ->
  Forall3 topic_outcome indexed topics outs ->
  Forall (fun i => is_Some (p_type i)) unindexed ->
  length values = length unindexed ->
  assemble inputs (rev topics) (rev values) = Ok (merge_fields inputs outs values).
Proof.
  revert indexed unindexed topics outs values.
  induction inputs as [|i rest IH]; intros indexed unindexed topics outs values Hn Hi Hu Ho Ht Hl.
  - reflexivity.
  - inversion Hn as [|? ? [name Hname] Hn']; subst.
    apply select_indexed_cons in Hi as (b & ind' & Hb & Hi & ->).
    apply select_indexed_cons in Hu as (b' & un' & Hb' & Hu & ->).
    rewrite Hb in Hb'. injection Hb' as <-.
    rewrite assemble_cons, Hname. cbn [getitem bind merge_fields]. rewrite Hb. cbn [default].
    destruct b; cbn [id negb] in *.
    + inversion Ho as [|x t [enc o] l ts os (ty & Hty & Henc & Hdec) Ho']; subst.
      cbn [fst snd] in *. rewrite Hty. cbn [getitem bind rev].
      replace (match rev ts ++ [t] with [] => Ok false | _ :: _ => Ok true end)
        with (Ok (A:=bool) true) by (destruct (rev ts); reflexivity).
      cbn [bind]. rewrite pop_snoc, Henc. cbn [bind].
      specialize (IH _ _ _ _ values Hn' Hi Hu Ho' Ht Hl).
      destruct o as [v|].
      * destruct Hdec as (more & ->). rewrite (render_data_field i v), IH. cbn [bind].
        unfold topic_field, data_field. rewrite Hname, Hty. reflexivity.
      * assert (Hraw : _0xstring (PBytes enc) = Ok (hexbytes_hex enc)) by reflexivity.
        destruct Hdec as [-> | [-> | ->]]; rewrite Hraw, IH; cbn [bind];
          unfold topic_field; rewrite Hname, Hty; reflexivity.
    + destruct values as [|v values]; [discriminate|].
      inversion Ht as [|? ? [ty Hty] Ht']; subst.
      rewrite Hty. cbn [getitem bind rev].
      replace (match rev topics with [] => Ok false | _ :: _ => Ok false end)
        with (Ok (A:=bool) false) by (destruct (rev topics); reflexivity).
      cbn [bind]. rewrite pop_snoc, (render_data_field i v). cbn [bind].
      rewrite (IH _ _ _ _ values Hn' Hi Hu Ho Ht') by (cbn in Hl; lia).
      cbn [bind]. unfold data_field. cbn [f_value]. rewrite Hname, Hty. reflexivity.
Qed.

(** X8: with as many topics as indexed inputs, [_decode] pairs the
    indexed inputs with the topics and the other inputs with the values
    decoded from the data, each in order, and returns the entries in the
    order of the inputs.  A topic the codec cannot decode for one of the
    three reasons it allows does not fail the call: its entry holds the
    topic in hexadecimal and is marked as not decoded. *)
Theorem X8_decode_pairs_topics_and_data_in_order
    (inputs indexed unindexed : list param) (topics : list pyval) (data buffer : pyval)
    (types : list string) (values : list pyval) (outs : list (list byte * option pyval)) :
  Forall (fun i => is_Some (p_name i)) inputs ->
  select_indexed id inputs = Ok indexed ->
  select_indexed negb inputs = Ok unindexed ->
  Forall3 topic_outcome indexed topics outs ->
  _params unindexed = Ok types ->
  fill_empty_data types data = Ok buffer ->
  decode_data types buffer = Ok values ->
  length values = length unindexed ->
  _decode inputs topics data = Ok (merge_fields inputs outs values).
Proof.
  intros Hn Hi Hu Ho Hty Hb Hd Hl.
  assert (Hlen : length topics = length indexed).
  { symmetry. clear -Ho. induction Ho; cbn; congruence. }
  unfold _decode, unindexed_inputs. rewrite Hi. cbn [bind]. rewrite <- Hlen.
  replace (negb (length topics =? 0)%nat && (length topics =? 0)%nat) with false
    by (destruct (length topics =? 0)%nat; reflexivity).
  rewrite Nat.ltb_irrefl, Hu. cbn [bind]. rewrite Hty. cbn [except_KeyError_TypeError bind].
  rewrite Hb. cbn [bind]. rewrite Hd. cbn [bind].
  apply (assemble_merge inputs indexed unindexed); try assumption.
  eapply _params_types_present, Hty.
Qed.

End FieldProperties.

(** ** Logs, again *)

Section LogResults.
Context `{Ext : Externals}.

Lemma except_KeyError_TypeError_Ok {A} (r : result A) (e : exn) (a : A) :
  except_KeyError_TypeError r e = Ok a -> r = Ok a.
Proof. destruct r as [a'|[]]; cbn; congruence. Qed.

(** X9: an event returned by [decode_log] carries the name of the schema
    found under the first topic, the entries [_decode] gives for the other
    topics and the data, the checksummed address, the mark [decoded], no
    [topics] key, and of the other keys of the log the three passthrough
    ones and no more. *)
Theorem X9_decode_log_result (log : raw_log) (tm : gmap string schema) (ev : event_record) :
  decode_log log tm = Ok ev ->
  exists topic0 topics key abi fields address,
    l_topics log = topic0 :: topics /\ _0xstring topic0 = Ok key /\ tm !! key = Some abi /\
    _decode (s_inputs abi) topics (l_data log) = Ok fields /\
    to_checksum_address (l_address log) = Ok address /\
    ev_name ev = Some (s_name abi) /\ ev_decoded ev = true /\ ev_topics ev = None /\
    ev_data ev = Fields fields /\ ev_address ev = Some address /\
    forall k, ev_extra ev !! k =
              if bool_decide (k ∈ ADD_LOG_ENTRIES) then l_extra log !! k else None.
Proof.
  unfold decode_log. destruct (l_topics log) as [|topic0 topics]; [discriminate|].
  intros H. bind_inv H as key Hkey. destruct (tm !! key) as [abi|] eqn:Hm; [|discriminate].
  apply except_KeyError_TypeError_Ok in H.
  bind_inv H as fields Hf. bind_inv H as address Ha.
  assert (Hev : ev = append_additional_log_data (l_extra log)
            {| ev_name := Some (s_name abi); ev_topics := None; ev_data := Fields fields;
               ev_decoded := true; ev_address := Some address; ev_extra := ∅ |}
            ADD_LOG_ENTRIES) by congruence.
  clear H. subst ev.
  exists topic0, topics, key, abi, fields, address.
  pose proof (append_additional_log_data_fields (l_extra log)
    {| ev_name := Some (s_name abi); ev_topics := None; ev_data := Fields fields;
       ev_decoded := true; ev_address := Some address; ev_extra := ∅ |}
    ADD_LOG_ENTRIES) as (Hn & Ht & Hd & Hdec & Hadd).
  repeat (split; [first [reflexivity|assumption]|]).
  intros k. rewrite append_additional_log_data_extra. cbn [ev_extra].
  rewrite lookup_empty. destruct (bool_decide _); [|reflexivity].
  destruct (l_extra log !! k); reflexivity.
Qed.

Lemma select_indexed_missing keep inputs :
  Exists (fun i => p_indexed i = None) inputs ->
  select_indexed keep inputs = Raise (KeyError "indexed").
Proof.
  induction 1 as [i rest Hi|i rest _ IH]; cbn [select_indexed].
  - rewrite Hi. reflexivity.
  - destruct (p_indexed i); [|reflexivity]. cbn [getitem bind]. rewrite IH. reflexivity.
Qed.

(** X10: a schema with an input that has no [indexed] key makes [_decode]
    raise [KeyError].  [decode_log] turns it into [EventError] with the
    message [Invalid event]; the trace walker calls [_decode] outside any
    handler and lets the [KeyError] through. *)
Theorem X10_input_without_indexed_key (inputs : list param) :
  Exists (fun i => p_indexed i = None) inputs ->
  (forall topics data, _decode inputs topics data = Raise (KeyError "indexed")) /\
  (forall log tm topic0 topics key name,
     l_topics log = topic0 :: topics -> _0xstring topic0 = Ok key ->
     tm !! key = Some {| s_name := name; s_inputs := inputs |} ->
     decode_log log tm = Raise (EventError "Invalid event")) /\
  (forall tm allow topic0 topics data address_list name,
     tm !! topic0 = Some {| s_name := name; s_inputs := inputs |} ->
     log_event tm allow (topic0 :: topics) data address_list = Raise (KeyError "indexed")).
Proof.
  intros Hex.
  assert (Hd : forall topics data, _decode inputs topics data = Raise (KeyError "indexed")).
  { intros topics data. unfold _decode, unindexed_inputs.
    rewrite (select_indexed_missing id inputs Hex). reflexivity. }
  split; [exact Hd|]. split.
  - intros log tm topic0 topics key name Ht Hk Hm.
    rewrite (decode_log_found log tm topic0 topics key _ Ht Hk Hm). cbn [s_inputs].
    rewrite Hd. reflexivity.
  - intros tm allow topic0 topics data address_list name Hm.
    unfold log_event. cbn [undecodable]. rewrite Hm.
    rewrite bool_decide_eq_false_2 by discriminate.
    cbn [getitem bind s_inputs]. rewrite Hd. reflexivity.
Qed.

(** X15: decoding two lists of logs one after the other is decoding
    their concatenation: the events of the first list, then those of the
    second, and the first exception met is the one raised. *)
Theorem X15_decode_logs_of_a_concatenation
    (logs1 logs2 : list raw_log) (tm : gmap string schema) (allow : bool) :
  decode_logs (logs1 ++ logs2) tm allow =
  let* events1 := decode_logs logs1 tm allow in
  let* events2 := decode_logs logs2 tm allow in
  Ok (events1 ++ events2).
Proof. rewrite !decode_logs_for_each. apply for_each_app. Qed.

Lemma get_log_topic_again e topic :
  hex_prefix = "0x" \/ hex_prefix = "" ->
  get_log_topic e = Ok topic -> _0xstring (PStr topic) = Ok topic.
Proof.
  intros Hp. unfold get_log_topic. destruct (truthy _); [discriminate|].
  intros H. bind_inv H as inputs Hi. bind_inv H as types Ht. bind_inv H as name Hn.
  cbv zeta in H. eapply _0xstring_again; [exact Hp|exact H].
Qed.

(** X16: the map of an ABI and the log decoders agree on the form of a
    topic.  For an event of the ABI that is not anonymous, a log whose
    first topic has the hexadecimal form [get_log_topic] gives for the event
    is found in the map: [decode_log] raises neither of its two errors on
    the topic and goes on to [_decode], and [decode_logs] hands the log to
    [decode_log].  The string [get_log_topic] returns is itself such a
    first topic. *)
Theorem X16_a_topic_of_the_map_is_found
    (abi : list abi_entry) (m : gmap string schema) (e : abi_entry) (topic : string) :
  get_topic_map abi = Ok m -> In e abi ->
  e_type e = Some "event" -> truthy (e_anonymous e) = false ->
  get_log_topic e = Ok topic ->
  (exists found, m !! topic = Some found /\
     forall log topic0 topics,
       l_topics log = topic0 :: topics -> _0xstring topic0 = Ok topic ->
       decode_log log m =
         except_KeyError_TypeError
           (let* data := _decode (s_inputs found) topics (l_data log) in
            let* address := to_checksum_address (l_address log) in
            Ok (append_additional_log_data (l_extra log)
                  {| ev_name := Some (s_name found); ev_topics := None;
                     ev_data := Fields data; ev_decoded := true;
                     ev_address := Some address; ev_extra := ∅ |} ADD_LOG_ENTRIES))
           (EventError "Invalid event") /\
       forall allow others,
         for_each _0xstring topics = Ok others ->
         decode_logs_item log m allow = decode_log log m) /\
  (hex_prefix = "0x" \/ hex_prefix = "" -> _0xstring (PStr topic) = Ok topic).
Proof.
  intros Hmap Hin Hty Ha Ht. split; [|intros Hp; eapply get_log_topic_again; eassumption].
  apply get_topic_map_Ok in Hmap.
  destruct (topic_dict_has_topic _ _ _ e Hmap) as (topic' & Ht' & [found Hfound]).
  { apply List.filter_In. split; [exact Hin|]. apply is_named_event_spec. auto. }
  rewrite Ht in Ht'. injection Ht' as <-.
  exists found. split; [exact Hfound|].
  intros log topic0 topics Hl Hk. split.
  - apply (decode_log_found log m topic0 topics topic found Hl Hk Hfound).
  - intros allow others Ho. unfold decode_logs_item. rewrite Hl. cbn [for_each].
    rewrite Hk. cbn [for_each] in Ho. rewrite Ho. cbn [bind undecodable].
    rewrite Hfound. rewrite bool_decide_eq_false_2 by discriminate. reflexivity.
Qed.

End LogResults.

(** ** The trace walker, again *)

Section WalkProperties.
Context `{Ext : Externals}.

Lemma track_address_calls later last_step step c rest d0 al :
  track_address later last_step step (Some c :: rest) = Ok al ->
  d0 <= sl_depth step -> Z.abs (sl_depth step - sl_depth last_step) <= 1 ->
  Z.of_nat (length rest) = sl_depth last_step - d0 ->
  exists rest', al = Some c :: rest' /\ Z.of_nat (length rest') = sl_depth step - d0.
Proof.
  intros H Hd0 Habs Hlen. unfold track_address in H.
  destruct (Z.ltb_spec (sl_depth last_step) (sl_depth step)) as [Hup|Hup].
  - assert (Hpush : exists x, al = (Some c :: rest) ++ [x]).
    { destruct (is_CREATE last_step).
      - destruct (find _ later) as [out_step|]; [|discriminate].
        bind_inv H as stack Hs. bind_inv H as word Hw. bind_inv H as address Ha.
        injection H as <-. eexists. reflexivity.
      - bind_inv H as stack Hs. bind_inv H as word Hw. bind_inv H as address Ha.
        injection H as <-. eexists. reflexivity. }
    destruct Hpush as (x & ->). exists (rest ++ [x]). split; [reflexivity|].
    rewrite length_app. cbn [length]. lia.
  - destruct (Z.ltb_spec (sl_depth step) (sl_depth last_step)) as [Hdown|Hdown].
    + destruct rest as [|y rest'] using rev_ind; [cbn [length] in Hlen; lia|].
      change (Some c :: rest' ++ [y]) with ((Some c :: rest') ++ [y]) in H.
      rewrite pop_snoc in H. injection H as <-.
      exists rest'. split; [reflexivity|]. rewrite length_app in Hlen. cbn [length] in Hlen. lia.
    + injection H as <-. exists rest. split; [reflexivity|]. lia.
Qed.

Lemma last_any_default {A} (l : list A) (x d d' : A) :
  List.last (x :: l) d = List.last (x :: l) d'.
Proof.
  revert x. induction l as [|y l IH]; intros x; [reflexivity|].
  change (List.last (y :: l) d = List.last (y :: l) d'). apply IH.
Qed.

Lemma walk_calls tm allow c d0 later last_step st st' rest :
  depths_of_calls d0 last_step later ->
  ws_address_list st = Some c :: rest ->
  Z.of_nat (length rest) = sl_depth last_step - d0 ->
  walk tm allow true later last_step st = Ok st' ->
  exists new rest',
    ws_events st' = ws_events st ++ new /\
    Forall2 (fun step ev => sl_depth step = d0 -> ev_address ev = Some c)
      (List.filter is_LOG later) new /\
    ws_address_list st' = Some c :: rest' /\
    Z.of_nat (length rest') = sl_depth (List.last later last_step) - d0.
Proof.
  revert last_step st rest.
  induction later as [|step later IH]; intros last_step st rest Hdepths Hal Hlen H.
  - injection H as <-. exists [], rest. rewrite app_nil_r. cbn. auto.
  - destruct Hdepths as (Hd0 & Habs & Hdepths).
    cbn [walk] in H. rewrite Hal in H. bind_inv H as al Htrack.
    destruct (track_address_calls _ _ _ _ _ d0 _ Htrack Hd0 Habs Hlen) as (rest1 & -> & Hlen1).
    assert (Hlast : List.last (step :: later) last_step = List.last later step).
    { destruct later as [|s later']; [reflexivity|].
      change (List.last (s :: later') last_step = List.last (s :: later') step).
      apply last_any_default. }
    rewrite Hlast. cbn [List.filter]. destruct (is_LOG step); cbn [negb] in H.
    + bind_inv H as [[offset len] topics] Hops. bind_inv H as data Hdata.
      bind_inv H as ev Hev.
      apply (IH step _ rest1 Hdepths) in H; [|reflexivity|exact Hlen1].
      destruct H as (new & rest' & Hevs & Hnew & Hal' & Hlen').
      cbn [ws_events] in Hevs. exists (ev :: new), rest'.
      split; [rewrite Hevs, <- app_assoc; reflexivity|]. split; [|auto].
      constructor; [|exact Hnew]. intros Hd.
      assert (rest1 = []) by (destruct rest1; [reflexivity|cbn [length] in Hlen1; lia]).
      subst rest1. apply log_event_address in Hev. cbn in Hev. congruence.
    + apply (IH step _ rest1 Hdepths) in H; [|reflexivity|exact Hlen1].
      destruct H as (new & rest' & Hevs & Hnew & Hal' & Hlen').
      exists new, rest'. auto.
Qed.

(** X11: when the walk follows the addresses, the depths never go under
    that of the first step and change by one at most between two steps,
    every event of a LOG at the depth of the first step carries the initial
    address, checksummed; the address stack keeps that address at its
    bottom and holds one more entry per level of depth. *)
Theorem X11_events_at_the_first_depth_carry_the_initial_address
    (s0 : struct_log) (later : list struct_log) (tm : gmap string schema) (allow : bool)
    (a : pyval) (c : string) (st : walk_state) :
  to_checksum_address a = Ok c ->
  depths_of_calls (sl_depth s0) s0 later ->
  trace_walk (s0 :: later) tm allow (Some a) = Ok st ->
  Forall2 (fun step ev => sl_depth step = sl_depth s0 -> ev_address ev = Some c)
    (List.filter is_LOG later) (ws_events st) /\
  exists rest, ws_address_list st = Some c :: rest /\
    Z.of_nat (length rest) = sl_depth (List.last later s0) - sl_depth s0.
Proof.
  intros Hc Hdepths. unfold trace_walk. rewrite Hc. cbn [bind]. intros H.
  rewrite bool_decide_eq_true_2 in H by (eexists; reflexivity).
  apply (walk_calls tm allow c (sl_depth s0) later s0 _ st [] Hdepths) in H;
    [|reflexivity|cbn [length]; lia].
  destruct H as (new & rest' & Hevs & Hnew & Hal & Hlen).
  cbn [ws_events app] in Hevs. rewrite Hevs. split; [exact Hnew|]. exists rest'. auto.
Qed.

Lemma walk_untracked_last tm allow later s s' st :
  walk tm allow false later s st = walk tm allow false later s' st.
Proof. destruct later; reflexivity. Qed.

(** Without tracking the events so far only stand in front of the new ones. *)
Lemma walk_untracked_from_empty tm allow later last_step st :
  walk tm allow false later last_step st =
  let* st' := walk tm allow false later last_step
                {| ws_events := []; ws_address_list := ws_address_list st |} in
  Ok {| ws_events := ws_events st ++ ws_events st';
        ws_address_list := ws_address_list st' |}.
Proof.
  revert last_step st. induction later as [|step later IH]; intros last_step st.
  - cbn. rewrite app_nil_r. destruct st; reflexivity.
  - cbn [walk bind ws_events ws_address_list].
    destruct (negb (is_LOG step)).
    + rewrite IH. reflexivity.
    + destruct (log_operands step) as [[[offset len] topics]|e]; cbn [bind]; [|reflexivity].
      destruct (log_data step offset len) as [data|e]; cbn [bind]; [|reflexivity].
      destruct (log_event tm allow topics data (ws_address_list st)) as [ev|e];
        cbn [bind]; [|reflexivity].
      rewrite IH. cbn [ws_events ws_address_list app].
      rewrite (IH step {| ws_events := [ev]; ws_address_list := ws_address_list st |}).
      cbn [ws_events ws_address_list].
      destruct (walk tm allow false later step _) as [st'|e]; cbn [bind]; [|reflexivity].
      rewrite <- app_assoc. reflexivity.
Qed.

Lemma walk_untracked_app tm allow later1 later2 last_step st :
  walk tm allow false (later1 ++ later2) last_step st =
  let* st1 := walk tm allow false later1 last_step st in
  walk tm allow false later2 last_step st1.
Proof.
  revert last_step st. induction later1 as [|step later1 IH]; intros last_step st.
  - reflexivity.
  - cbn [app walk bind].
    destruct (negb (is_LOG step)).
    + rewrite IH.
      destruct (walk tm allow false later1 step _) as [st1|e]; cbn [bind]; [|reflexivity].
      apply walk_untracked_last.
    + destruct (log_operands step) as [[[offset len] topics]|e]; cbn [bind]; [|reflexivity].
      destruct (log_data step offset len) as [data|e]; cbn [bind]; [|reflexivity].
      destruct (log_event tm allow topics data (ws_address_list st)) as [ev|e];
        cbn [bind]; [|reflexivity].
      rewrite IH.
      destruct (walk tm allow false later1 step _) as [st1|e]; cbn [bind]; [|reflexivity].
      apply walk_untracked_last.
Qed.

(** X12: without an initial address the walk of a trace cut in two is
    the walk of its two parts: the events of the steps up to the cut, then
    those of the steps after it, whatever step is put in front of the
    second part. *)
Theorem X12_untracked_walk_of_a_trace_in_two_parts
    (s0 s1 : struct_log) (later1 later2 : list struct_log)
    (tm : gmap string schema) (allow : bool) :
  decode_traceTransaction (s0 :: later1 ++ later2) tm allow None =
  let* events1 := decode_traceTransaction (s0 :: later1) tm allow None in
  let* events2 := decode_traceTransaction (s1 :: later2) tm allow None in
  Ok (events1 ++ events2).
Proof.
  unfold decode_traceTransaction, trace_walk. cbn [bind].
  change (bool_decide (is_Some (@None pyval))) with false.
  rewrite walk_untracked_app.
  destruct (walk tm allow false later1 s0 _) as [st1|e] eqn:H1; cbn [bind]; [|reflexivity].
  apply walk_untracked in H1 as [Hal _]. cbn [ws_address_list] in Hal.
  rewrite (walk_untracked_from_empty tm allow later2 s0 st1), Hal.
  rewrite (walk_untracked_last tm allow later2 s0 s1).
  destruct (walk tm allow false later2 s1 _) as [st2|e]; reflexivity.
Qed.

(** X13: the data of a LOG step are the bytes of its memory from [offset]
    on, [length] of them or as many as the memory still holds: a range that
    runs past the end of the memory is cut short and raises nothing. *)
Theorem X13_log_data_is_the_slice_of_memory
    (step : struct_log) (memory : list string) (mem : list byte) (offset len : Z) :
  hex_prefix = "0x" \/ hex_prefix = "" ->
  sl_memory step = Some memory ->
  HexBytes (PStr (String.concat "" memory)) = Ok mem ->
  0 <= offset -> 0 <= len ->
  log_data step offset len = Ok (hexbytes_hex (slice mem offset (offset + len))) /\
  length (slice mem offset (offset + len))
    = Nat.min (Z.to_nat len) (length mem - Z.to_nat offset).
Proof.
  intros Hp Hmem Hbytes Hoff Hlen. split.
  - unfold log_data. rewrite Hmem. cbn [getitem bind]. rewrite Hbytes. cbn [bind].
    rewrite (_0xstring_again (PBytes (slice mem offset (offset + len))) _ Hp eq_refl).
    reflexivity.
  - unfold slice. rewrite length_take, length_drop. f_equal. lia.
Qed.

(** X14: a LOG0 step gives no topic, so the walk never decodes it: it
    raises [UnknownEvent] when undecoded events are not allowed, and
    otherwise returns the placeholder event with an empty list of topics. *)
Theorem X14_LOG0_is_never_decoded
    (step : struct_log) (offset len : Z) (topics : list string) :
  sl_op step = "LOG0" ->
  log_operands step = Ok (offset, len, topics) ->
  topics = [] /\
  (forall tm data address_list,
     log_event tm false topics data address_list
     = Raise (UnknownEvent "Log contains undecodable event")) /\
  (forall tm data address_list address,
     from_end 1 address_list = Ok address ->
     log_event tm true topics data address_list
     = Ok {| ev_name := None; ev_topics := Some []; ev_data := RawData data;
             ev_decoded := false; ev_address := address; ev_extra := ∅ |}).
Proof.
  intros Hop Hops.
  assert (Ht : topics = []).
  { destruct (sl_stack step) as [stack|] eqn:Hs.
    - destruct (log_operands_topic_count step stack offset len topics Hs Hops)
        as (suffix & k & Hsuf & Hk & Hcount).
      rewrite Hop in Hsuf. injection Hsuf as <-. injection Hk as <-.
      destruct topics; [reflexivity|discriminate].
    - unfold log_operands in Hops. rewrite Hs in Hops. discriminate. }
  subst topics. split; [reflexivity|]. split.
  - reflexivity.
  - intros tm data address_list address Ha. unfold log_event. cbn. rewrite Ha. reflexivity.
Qed.

End WalkProperties.

(** ** A CREATE that does not return *)

Section CreateProperties.
Context `{Ext : Externals}.

Lemma find_depth_none (d : Z) (l : list struct_log) :
  Forall (fun x => sl_depth x <> d) l -> find (fun x => sl_depth x =? d) l = None.
Proof.
  induction 1 as [|x l Hx _ IH]; [reflexivity|].
  cbn [find]. replace (sl_depth x =? d) with false by (symmetry; apply Z.eqb_neq, Hx).
  exact IH.
Qed.

(** X17: when the addresses are followed and a CREATE step is followed
    by a deeper step, the address of the new contract is looked for in the
    first later step back at the depth of the CREATE.  When the trace has
    no such step the search raises [StopIteration], which nothing handles:
    the walk stops there and the call returns no event. *)
Theorem X17_CREATE_without_return_raises_StopIteration
    (create step : struct_log) (rest : list struct_log)
    (tm : gmap string schema) (allow : bool) :
  is_CREATE create = true ->
  sl_depth create < sl_depth step ->
  Forall (fun x => sl_depth x <> sl_depth create) (step :: rest) ->
  (forall st, walk tm allow true (step :: rest) create st = Raise StopIteration) /\
  (forall a c, to_checksum_address a = Ok c ->
     decode_traceTransaction (create :: step :: rest) tm allow (Some a)
     = Raise StopIteration).
Proof.
  intros Hc Hd Hno.
  assert (Hw : forall st, walk tm allow true (step :: rest) create st = Raise StopIteration).
  { intros st. cbn [walk]. unfold track_address.
    replace (sl_depth create <? sl_depth step) with true by (symmetry; apply Z.ltb_lt, Hd).
    rewrite Hc, (find_depth_none _ _ Hno). reflexivity. }
  split; [exact Hw|].
  intros a c Ha. unfold decode_traceTransaction, trace_walk. rewrite Ha. cbn [bind].
  rewrite bool_decide_eq_true_2 by (eexists; reflexivity).
  rewrite Hw. reflexivity.
Qed.

End CreateProperties.

(** ** The further properties at the sample inputs *)

Lemma X1_witness : _0xstring (Ext:=test_externals) (PStr "0xab") = Ok "0xab".
Proof.
  apply (proj2 (X1_0xstring_reads_its_own_result (Ext:=test_externals) (or_introl eq_refl))
           (PStr "0xAB") "0xab").
  reflexivity.
Defined.

Lemma X3_witness :
  _params [Param None (Some "tuple[2][3]") None (Some [uint256 "a" false])]
  = Ok ["(uint256)[2]"].
Proof.
  apply (X3_tuple_type_keeps_the_first_bracket_group None "2" "[3]" None
           [uint256 "a" false] ["uint256"]); reflexivity.
Defined.

Lemma X5_witness :
  exists m, get_topic_map (Ext:=test_externals) sample_abi = Ok m /\
    is_Some (m !! pair_topic) /\
    forall topic s, m !! topic = Some s -> s_name s = "Pair".
Proof.
  destruct (get_topic_map (Ext:=test_externals) sample_abi) as [m|e] eqn:H;
    [|vm_compute in H; discriminate].
  destruct (X5_get_topic_map_holds_the_named_events (Ext:=test_externals) sample_abi m H)
    as [Hin Hout].
  exists m. split; [reflexivity|]. split.
  - destruct (Hin pair_abi (or_introl eq_refl) eq_refl eq_refl) as (topic & Ht & Hm).
    vm_compute in Ht. injection Ht as <-. exact Hm.
  - intros topic s Hs. destruct (Hout topic s Hs) as (e & He & Hty & Ha & _ & Hn & _).
    destruct He as [<-|[<-|[<-|[]]]]; cbn in Hty, Ha, Hn; congruence.
Defined.

Lemma X6_witness :
  exists m, get_topic_map (Ext:=test_externals) [pair_abi; pair_abi_again] = Ok m /\
    m !! pair_topic
    = Some {| s_name := "Pair"; s_inputs := [uint256 "x" false; uint256 "y" false] |}.
Proof.
  destruct (get_topic_map (Ext:=test_externals) [pair_abi; pair_abi_again]) as [m|e] eqn:H;
    [|vm_compute in H; discriminate].
  exists m. split; [reflexivity|].
  destruct (X6_the_last_event_of_a_topic_wins (Ext:=test_externals)
              [pair_abi] [] pair_abi_again m pair_topic H eq_refl eq_refl eq_refl
              (List.Forall_nil _))
    as (name & inputs & Hn & Hi & Hm).
  cbn in Hn, Hi. injection Hn as <-. injection Hi as <-. exact Hm.
Defined.

Lemma X7_witness :
  exists fields,
    _decode (Ext:=test_externals) string_inputs [PBytes (word x05%byte)]
      (PBytes (word x09%byte)) = Ok fields /\
    length fields = 2%nat /\ Forall2 entry_of string_inputs fields.
Proof.
  eexists. split; [vm_compute; reflexivity|].
  apply (X7_decode_gives_one_entry_per_input (Ext:=test_externals) string_inputs
           [PBytes (word x05%byte)] (PBytes (word x09%byte))).
  vm_compute. reflexivity.
Defined.

Lemma X8_witness :
  _decode (Ext:=test_externals) string_inputs [PBytes (word x05%byte)] (PBytes (word x09%byte))
  = Ok [topic_field (Ext:=test_externals)
          (Param (Some "s") (Some "string") (Some true) None) (word x05%byte) None;
        data_field (Ext:=test_externals) (uint256 "b" false) (PInt 9)].
Proof.
  apply (X8_decode_pairs_topics_and_data_in_order (Ext:=test_externals)
           string_inputs [Param (Some "s") (Some "string") (Some true) None]
           [uint256 "b" false] [PBytes (word x05%byte)] (PBytes (word x09%byte))
           (PBytes (word x09%byte)) ["uint256"] [PInt 9] [(word x05%byte, None)]);
    try reflexivity.
  - repeat constructor; eexists; reflexivity.
  - constructor; [|constructor]. exists "string".
    split; [reflexivity|]. split; [reflexivity|]. right. left. reflexivity.
Defined.

Lemma X9_witness :
  exists ev, decode_log (Ext:=test_externals) no_topics_log sample_map = Ok ev /\
    ev_name ev = Some "Mixed" /\ ev_address ev = Some "0xaa" /\
    ev_extra ev !! "logIndex" = Some (PInt 3) /\ ev_extra ev !! "other" = None.
Proof.
  destruct (decode_log (Ext:=test_externals) no_topics_log sample_map) as [ev|e] eqn:H;
    [|vm_compute in H; discriminate].
  exists ev. split; [reflexivity|].
  destruct (X9_decode_log_result (Ext:=test_externals) no_topics_log sample_map ev H)
    as (topic0 & topics & key & abi & fields & address
        & Ht & Hk & Hm & Hf & Ha & Hn & _ & _ & _ & Hadd & Hextra).
  cbn in Ht. injection Ht as <- <-. vm_compute in Hk. injection Hk as <-.
  vm_compute in Hm. injection Hm as <-. cbn in Ha. injection Ha as <-.
  split; [exact Hn|]. split; [exact Hadd|]. rewrite !Hextra. split; reflexivity.
Defined.

Lemma X10_witness :
  _decode (Ext:=test_externals) unflagged_inputs [] (PStr "0x") = Raise (KeyError "indexed").
Proof.
  assert (H : Exists (fun i => p_indexed i = None) unflagged_inputs)
    by (left; reflexivity).
  apply (proj1 (X10_input_without_indexed_key (Ext:=test_externals) unflagged_inputs H)).
Defined.

Lemma X11_witness :
  exists st,
    trace_walk (Ext:=test_externals) [call_step; value_step; value_step_after] sample_map
      true (Some (PStr "0xaa")) = Ok st /\
    Forall2 (fun step ev => sl_depth step = 1 -> ev_address ev = Some "0xaa")
      [value_step; value_step_after] (ws_events st).
Proof.
  destruct (trace_walk (Ext:=test_externals) [call_step; value_step; value_step_after]
              sample_map true (Some (PStr "0xaa"))) as [st|e] eqn:H;
    [|vm_compute in H; discriminate].
  exists st. split; [reflexivity|].
  apply (X11_events_at_the_first_depth_carry_the_initial_address (Ext:=test_externals)
           call_step [value_step; value_step_after] sample_map true (PStr "0xaa") "0xaa" st
           eq_refl); [|exact H].
  cbn. repeat split; discriminate.
Defined.

Lemma X13_witness :
  log_data (Ext:=test_externals) log0_step 16 32 = Ok "0x00000000000000000000000000000007".
Proof.
  apply (proj1 (X13_log_data_is_the_slice_of_memory (Ext:=test_externals) log0_step
                  ["0000000000000000000000000000000000000000000000000000000000000007"]
                  (word x07%byte) 16 32 (or_introl eq_refl) eq_refl eq_refl
                  ltac:(discriminate) ltac:(discriminate))).
Defined.

Lemma X14_witness :
  log_operands (Ext:=test_externals) log0_step = Ok (16, 32, []) /\
  log_event (Ext:=test_externals) sample_map false [] "0x" [None]
  = Raise (UnknownEvent "Log contains undecodable event").
Proof.
  destruct (X14_LOG0_is_never_decoded (Ext:=test_externals) log0_step 16 32 []
              eq_refl eq_refl) as (_ & Hraise & _).
  split; [reflexivity|]. apply Hraise.
Defined.

Lemma X16_witness :
  exists m found, get_topic_map (Ext:=test_externals) sample_abi = Ok m /\
    m !! pair_topic = Some found /\
    _0xstring (Ext:=test_externals) (PStr pair_topic) = Ok pair_topic.
Proof.
  destruct (get_topic_map (Ext:=test_externals) sample_abi) as [m|e] eqn:H;
    [|vm_compute in H; discriminate].
  destruct (X16_a_topic_of_the_map_is_found (Ext:=test_externals) sample_abi m pair_abi
              pair_topic H (or_introl eq_refl) eq_refl eq_refl eq_refl)
    as ((found & Hfound & _) & Hagain).
  exists m, found. split; [reflexivity|]. split; [exact Hfound|].
  apply Hagain. left. reflexivity.
Defined.

Lemma X17_witness :
  decode_traceTransaction (Ext:=test_externals) [create_step; inner_step; inner_step]
    sample_map true (Some (PStr "0xaa")) = Raise StopIteration.
Proof.
  apply (proj2 (X17_CREATE_without_return_raises_StopIteration (Ext:=test_externals)
                  create_step inner_step [inner_step] sample_map true
                  eq_refl eq_refl ltac:(repeat constructor; discriminate))
           (PStr "0xaa") "0xaa").
  reflexivity.
Defined.
